(** * pyPSVR, example4_vridge_sensors/vridge_psvr.py

    A shallow embedding of the head-tracking script: the decoding of the
    PSVR sensor report, the reconciliation of its rolling 24-bit timestamps,
    the gyro calibration loop, the fusion loop that drives the orientation
    filter, and the VRidge frames it builds.

    Conventions of the embedding.
    - Python integers are [Z]; numpy's int64 arrays wrap at 64 bits.
    - Python floats are Rocq's primitive binary64 floats, so every float
      the script computes is computed here bit for bit ([/] is Python 3's
      true division).
    - Bytes are [Byte.byte]; a [bytes] object is a [list byte].
    - An exception that leaves a loop is the [Raise] outcome of a step.
    - The libraries the script imports (construct, numpy) are modelled for
      the calls it makes; the orientation filter (madgwickahrs, pyquaternion)
      is an interface the loop is parameterised by. *)

From Stdlib Require Import ZArith List Lia Bool Floats.
From Stdlib Require Import Strings.Byte.
From Stdlib Require Strings.Ascii Strings.String.
Import ListNotations.
Local Open Scope Z_scope.

(* ================================================================== *)
(** * Python and numpy arithmetic *)
(* ================================================================== *)

Module Py.

(** [float(z)]: the binary64 float nearest to the integer [z] (ties to
    even); exact for [|z| <= 2^53]. *)
Definition float_of_Z (z : Z) : float :=
  SF2Prim (binary_normalize prec emax z 0 false).

(** [a / b] on two Python 3 integers: true division.  For operands below
    [2^53] in magnitude, which is the case of every quotient of the script,
    it is the float quotient of the two exactly converted operands. *)
Definition true_div (a b : Z) : float :=
  (float_of_Z a / float_of_Z b)%float.

(** [x > y] on floats. *)
Definition float_gt (x y : float) : bool := (y <? x)%float.

(** [np.pi], the double nearest to pi. *)
Definition np_pi : float := 0x1.921fb54442d18p+1%float.

(** Two's complement wrap-around of numpy's int64. *)
Definition wrap_int64 (z : Z) : Z := (z + 2 ^ 63) mod 2 ^ 64 - 2 ^ 63.

Definition ivec : Type := Z * Z * Z.
Definition fvec : Type := float * float * float.

Definition vmap {A B} (f : A -> B) (v : A * A * A) : B * B * B :=
  let '(a, b, c) := v in (f a, f b, f c).

Definition vzip {A B C} (f : A -> B -> C) (u : A * A * A) (v : B * B * B)
  : C * C * C :=
  let '(a, b, c) := u in let '(x, y, z) := v in (f a x, f b y, f c z).

(** A numpy array of three elements, of dtype int64 or float64. *)
Inductive ndarray : Type :=
| IntArr (v : ivec)
| FloatArr (v : fvec).

(** [astype(float)]: the promotion numpy applies to an int64 operand that
    meets a float64 one. *)
Definition as_float (a : ndarray) : fvec :=
  match a with
  | IntArr v => vmap float_of_Z v
  | FloatArr v => v
  end.

(** Element-wise binary operation with numpy's promotion: int64 with int64
    stays int64 (and wraps), anything else is float64. *)
Definition np_binop (fi : Z -> Z -> Z) (ff : float -> float -> float)
  (a b : ndarray) : ndarray :=
  match a, b with
  | IntArr u, IntArr v => IntArr (vzip (fun x y => wrap_int64 (fi x y)) u v)
  | _, _ => FloatArr (vzip ff (as_float a) (as_float b))
  end.

Definition np_add : ndarray -> ndarray -> ndarray := np_binop Z.add PrimFloat.add.
Definition np_sub : ndarray -> ndarray -> ndarray := np_binop Z.sub PrimFloat.sub.
Definition np_mul : ndarray -> ndarray -> ndarray := np_binop Z.mul PrimFloat.mul.

(** [a * c] and [a / c] for a Python float scalar [c]: always float64. *)
Definition np_mul_scalar (a : ndarray) (c : float) : ndarray :=
  FloatArr (vmap (fun x => x * c)%float (as_float a)).

Definition np_div_scalar (a : ndarray) (c : float) : ndarray :=
  FloatArr (vmap (fun x => x / c)%float (as_float a)).

(** [a >> k] on an int64 array: arithmetic shift. *)
Definition np_rshift (v : ivec) (k : Z) : ndarray :=
  IntArr (vmap (fun x => Z.shiftr x k) v).

(** [data[i:j]] on a bytes object, for [0 <= i <= j]: the slice is cut
    short when the object is. *)
Definition slice (data : list byte) (i j : nat) : list byte :=
  firstn (j - i) (skipn i data).

End Py.

(* ================================================================== *)
(** * The construct library: the fields the script declares *)
(* ================================================================== *)

Module Construct.

Definition byte_to_Z (b : byte) : Z := Z.of_N (Byte.to_N b).

Definition byte_of_Z (z : Z) : byte :=
  match Byte.of_N (Z.to_N (z mod 256)) with
  | Some b => b
  | None => x00
  end.

(** Little-endian value of a byte string. *)
Fixpoint le_decode (bs : list byte) : Z :=
  match bs with
  | [] => 0
  | b :: bs' => byte_to_Z b + 256 * le_decode bs'
  end.

(** The [n] little-endian bytes of [z]. *)
Fixpoint le_encode (n : nat) (z : Z) : list byte :=
  match n with
  | O => []
  | S n' => byte_of_Z z :: le_encode n' (z / 256)
  end.

(** ** Parsing.  A parser consumes a prefix of the stream or fails
    (construct's StreamError when the stream runs out). *)

Definition parser (A : Type) : Type := list byte -> option (A * list byte).

Definition ret {A} (a : A) : parser A := fun s => Some (a, s).

Definition bind {A B} (p : parser A) (k : A -> parser B) : parser B :=
  fun s => match p s with
           | Some (a, s') => k a s'
           | None => None
           end.

Notation "x <- p ;; k" := (bind p (fun x => k))
  (at level 61, p at next level, right associativity).

Definition stream_read (n : nat) : parser (list byte) :=
  fun s => if (n <=? length s)%nat then Some (firstn n s, skipn n s) else None.

Definition Int32ul : parser Z :=
  bs <- stream_read 4 ;; ret (le_decode bs).

Definition Int16sl : parser Z :=
  bs <- stream_read 2 ;;
  let u := le_decode bs in
  ret (if u <? 2 ^ 15 then u else u - 2 ^ 16).

(** [Array(3, sub)]. *)
Definition Array3 {A} (sub : parser A) : parser (A * A * A) :=
  a <- sub ;; b <- sub ;; c <- sub ;; ret (a, b, c).

(** ** Building.  [None] is a construct build error. *)

(** [Const(v, Int32ul)]. *)
Definition Int32ul_build (v : Z) : option (list byte) :=
  if (0 <=? v) && (v <? 2 ^ 32) then Some (le_encode 4 v) else None.

(** The binary32 value C's [(float) x] yields for a double: rounding to
    nearest, ties to even.  [None] is Python's OverflowError ("float too
    large to pack with f format"), raised when a finite double rounds to
    an infinity. *)
Definition binary32_of_float (x : float) : option spec_float :=
  match Prim2SF x with
  | S754_finite s m e =>
      match binary_round 24 128 s m e with
      | S754_infinity _ => None
      | y => Some y
      end
  | y => Some y
  end.

(** The IEEE 754 binary32 interchange encoding.  The primitive floats have
    one NaN; it is given the encoding of the positive quiet NaN. *)
Definition binary32_bits (y : spec_float) : Z :=
  let sign (s : bool) := if s then 2 ^ 31 else 0 in
  match y with
  | S754_zero s => sign s
  | S754_infinity s => sign s + 255 * 2 ^ 23
  | S754_nan => 255 * 2 ^ 23 + 2 ^ 22
  | S754_finite s m e => sign s + (e + 149) * 2 ^ 23 + Zpos m
  end.

(** [Float32l.build(x)], that is [struct.pack("<f", x)]. *)
Definition Float32l_build (x : float) : option (list byte) :=
  match binary32_of_float x with
  | Some y => Some (le_encode 4 (binary32_bits y))
  | None => None
  end.

(** The elements of an array, built one after the other. *)
Fixpoint build_all {A} (sub : A -> option (list byte)) (xs : list A)
  : option (list byte) :=
  match xs with
  | [] => Some []
  | x :: xs' =>
      match sub x, build_all sub xs' with
      | Some b, Some bs => Some (b ++ bs)
      | _, _ => None
      end
  end.

(** [Array(count, sub).build(xs)]: a RangeError unless [xs] has exactly
    [count] elements. *)
Definition Array_build {A} (count : nat) (sub : A -> option (list byte))
  (xs : list A) : option (list byte) :=
  if (length xs =? count)%nat then build_all sub xs else None.

(** [Padded(len, sub)]: the bytes of [sub] followed by zero bytes up to
    [len]; a PaddingError when [sub] built more than [len] bytes. *)
Definition Padded_build (len : nat) (sub : option (list byte))
  : option (list byte) :=
  match sub with
  | Some bs =>
      if (length bs <=? len)%nat
      then Some (bs ++ repeat x00 (len - length bs))
      else None
  | None => None
  end.

(** [Struct(f1, f2, ...)]: the fields one after the other. *)
Fixpoint Struct_build (fields : list (option (list byte)))
  : option (list byte) :=
  match fields with
  | [] => Some []
  | f :: fs =>
      match f, Struct_build fs with
      | Some b, Some bs => Some (b ++ bs)
      | _, _ => None
      end
  end.

End Construct.

Import Py Construct.

(* ================================================================== *)
(** * The script: declarations (lines 30-130) *)
(* ================================================================== *)

(** The command-line options the loops read (lines 31-45); [debug] only
    prints and [server] only names the peer. *)
Record options : Type := {
  angle : bool;
  sim : bool;
  comp : bool
}.

(** One sub-frame of the sensor report (lines 57-61). *)
Record frame : Type := {
  timestamp : Z;   (* Int32ul: only 24 bits used, then rolls, usec *)
  gyro : ivec;     (* Array(3, Int16sl) *)
  acc : ivec       (* Array(3, Int16sl): only 12 bits used, >> 4 *)
}.

Definition sensor : parser frame :=
  t <- Int32ul ;;
  g <- Array3 Int16sl ;;
  a <- Array3 Int16sl ;;
  ret {| timestamp := t; gyro := g; acc := a |}.

(** [sensor.parse(bs)]: the fields are read from the head of [bs]; bytes
    after them are left unread, too few bytes raise. *)
Definition sensor_parse (bs : list byte) : option frame :=
  match sensor bs with
  | Some (f, _) => Some f
  | None => None
  end.

(** Lines 63-64. *)
Definition ACC_FACTOR : ndarray := IntArr (1, 1, -1).

Definition GYRO_FACTOR : ndarray :=
  np_mul_scalar (IntArr (1, 1, -1))
    ((1998 / float_of_Z (Z.shiftl 1 15)) * (np_pi / 180))%float.

(** Lines 66-68: the module-level variables the loops assign. *)
Record globals : Type := {
  time2 : Z;
  gcomp : ndarray
}.

Definition globals_init : globals :=
  {| time2 := 0; gcomp := IntArr (0, 0, 0) |}.

Definition position : list float := map float_of_Z [0; 0; 0].

(** The twelve bytes the three [Const] fields of a frame build. *)
Definition header (task : Z) : list (option (list byte)) :=
  [Int32ul_build 2; Int32ul_build task; Int32ul_build 24].

(** Lines 111-116, [anglesposition.build(dict(data=data))]. *)
Definition anglesposition_build (data : list float) : option (list byte) :=
  Struct_build (header 3 ++ [Padded_build 64 (Array_build 6 Float32l_build data)]).

(** Lines 118-123. *)
Definition quaternionposition_build (data : list float) : option (list byte) :=
  Struct_build (header 4 ++ [Padded_build 64 (Array_build 7 Float32l_build data)]).

(** Lines 125-130. *)
Definition justposition_build (data : list float) : option (list byte) :=
  Struct_build (header 5 ++ [Padded_build 64 (Array_build 3 Float32l_build data)]).

(* ================================================================== *)
(** * Timestamp reconciliation *)
(* ================================================================== *)

(** Lines 144-150 and 194-200: the first sub-frame against the timestamp
    retained in [time2]. *)
Definition delta_first (time1 time2 : Z) : float :=
  let time2 := if time1 <? time2 then time2 - Z.shiftl 1 24 else time2 in
  if negb (time2 =? 0)
  then true_div (time1 - time2) 1000000
  else true_div 500 1000000.   (* Assume 500us for first sample *)

(** Lines 158-160 and 208-210: the second sub-frame against the first. *)
Definition delta_second (time1 time2 : Z) : float :=
  let time1 := if time2 <? time1 then time1 - Z.shiftl 1 24 else time1 in
  true_div (time2 - time1) 1000000.

(* ================================================================== *)
(** * The calibration loop (lines 134-168) *)
(* ================================================================== *)

(** What one iteration of the loop body does. *)
Inductive cal_step : Type :=
| CalNext (g : globals) (comptime : float)   (* on to the next iteration *)
| CalBreak (g : globals)                     (* line 168 *)
| CalRaise.                                  (* an exception leaves the loop *)

(** The loop body, lines 138-168, on the value [Sensor.read(64)] returned.
    [comptime] starts as the integer 0 and is a float from the first
    addition on; it is a float throughout here, since [0 + x] and
    [0.0 + x] are the same float. *)
Definition calibration_body (g : globals) (comptime : float)
  (data : option (list byte)) : cal_step :=
  match data with
  | None => CalNext g comptime                               (* continue *)
  | Some data =>
      match sensor_parse (slice data 16 32) with
      | None => CalRaise
      | Some frame1 =>
          let time1 := timestamp frame1 in
          let delta := delta_first time1 (time2 g) in
          let gcomp1 := np_add (gcomp g) (IntArr (gyro frame1)) in
          let comptime := (comptime + delta)%float in
          match sensor_parse (slice data 32 48) with
          | None => CalRaise
          | Some frame2 =>
              let time2' := timestamp frame2 in
              let delta := delta_second time1 time2' in
              let gcomp2 := np_add gcomp1 (IntArr (gyro frame2)) in
              let comptime := (comptime + delta)%float in
              if float_gt comptime 5
              then CalBreak
                     {| time2 := time2';
                        gcomp := np_div_scalar (np_mul gcomp2 GYRO_FACTOR) comptime |}
              else CalNext {| time2 := time2'; gcomp := gcomp2 |} comptime
          end
      end
  end.

(** How the loop stands once the reads handed to it are used up. *)
Inductive cal_result : Type :=
| Calibrated (g : globals) (rest : list (option (list byte)))
| Calibrating (g : globals) (comptime : float)
| CalibrationRaised.

(** The loop, on the successive results of [Sensor.read(64)]. *)
Fixpoint calibration_loop (g : globals) (comptime : float)
  (reads : list (option (list byte))) : cal_result :=
  match reads with
  | [] => Calibrating g comptime
  | data :: rest =>
      match calibration_body g comptime data with
      | CalNext g' comptime' => calibration_loop g' comptime' rest
      | CalBreak g' => Calibrated g' rest
      | CalRaise => CalibrationRaised
      end
  end.

(** Lines 134-168: the loop is entered only with a device and [--comp]. *)
Definition calibration (Sensor : bool) (opts : options)
  (reads : list (option (list byte))) : cal_result :=
  if Sensor && comp opts
  then calibration_loop globals_init 0 reads
  else Calibrated globals_init reads.

(* ================================================================== *)
(** * The orientation filter, as the script uses it *)
(* ================================================================== *)

(** madgwickahrs.MadgwickAHRS and the pyquaternion value it holds.  The
    second and third arguments of [update_imu] are the arrays the script
    passes; the last is the delta, absent in simulation. *)
Class Filter (ahrs : Type) : Type := {
  MadgwickAHRS : float -> float -> float * float * float * float -> ahrs;
  update_imu : ahrs -> ndarray -> ndarray -> option float -> ahrs;
  yaw_pitch_roll : ahrs -> float * float * float;
  elements : ahrs -> float * float * float * float
}.

(** A filter that only records the calls made to it, latest first. *)
Definition call : Type := ndarray * ndarray * option float.

#[export] Instance Recorder : Filter (list call) := {
  MadgwickAHRS := fun _ _ _ => [];
  update_imu := fun log g a d => (g, a, d) :: log;
  yaw_pitch_roll := fun _ => (0, 0, 0)%float;
  elements := fun _ => (1, 0, 0, 0)%float
}.

(* ================================================================== *)
(** * The fusion loop (lines 174-233) *)
(* ================================================================== *)

(** The angular rate of lines 203 and 213,
    [(np.array(frame["gyro"])-gcomp)*GYRO_FACTOR]. *)
Definition gyro_rate (gcomp : ndarray) (f : frame) : ndarray :=
  np_mul (np_sub (IntArr (gyro f)) gcomp) GYRO_FACTOR.

(** The acceleration of lines 204 and 214,
    [(np.array(frame["acc"])>>4)*ACC_FACTOR]. *)
Definition acc_counts (f : frame) : ndarray :=
  np_mul (np_rshift (acc f) 4) ACC_FACTOR.

Section Fusion.

Context {ahrs : Type} `{Filter ahrs}.

(** Lines 174-179. *)
Definition ahrs_init : ahrs :=
  MadgwickAHRS 0x1.0624dd2f1a9fcp-11 (* 0.0005 *) 0x1.999999999999ap-4 (* 0.1 *)
    (1, 0, 0, 0)%float.

(** Lines 221-229. *)
Definition output_build (opts : options) (q : ahrs) : option (list byte) :=
  if angle opts then
    let '(y, p, r) := yaw_pitch_roll q in
    anglesposition_build ([p; y; r] ++ position)
  else
    (* Send as Quaternion (note: VRidge params switched) *)
    let '(w, x, y, z) := elements q in
    quaternionposition_build ([y; z; x; w] ++ position).

(** What one iteration of the loop body does. *)
Inductive fus_step : Type :=
| FusContinue (g : globals) (q : ahrs)                       (* line 190 *)
| FusSent (g : globals) (q : ahrs) (output : list byte)      (* line 232 *)
| FusRaise.

(** Lines 221-233, once the filter has been updated. *)
Definition send (opts : options) (g : globals) (q : ahrs) : fus_step :=
  match output_build opts q with
  | Some output => FusSent g q output
  | None => FusRaise
  end.

(** The loop body, lines 182-233.  [data] is what [Sensor.read(64)]
    returns; in simulation no read is made and [data] is not looked at. *)
Definition fusion_body (opts : options) (g : globals) (q : ahrs)
  (data : option (list byte)) : fus_step :=
  if sim opts then
    send opts g (update_imu q (IntArr (0, 1, 0)) (IntArr (0, 1, 0)) None)
  else
    match data with
    | None => FusContinue g q                                (* continue *)
    | Some data =>
        match sensor_parse (slice data 16 32) with
        | None => FusRaise
        | Some frame1 =>
            let time1 := timestamp frame1 in
            let delta := delta_first time1 (time2 g) in
            let q := update_imu q (gyro_rate (gcomp g) frame1) (acc_counts frame1)
                       (Some delta) in
            match sensor_parse (slice data 32 48) with
            | None => FusRaise
            | Some frame2 =>
                let g := {| time2 := timestamp frame2; gcomp := gcomp g |} in
                let delta := delta_second time1 (time2 g) in
                let q := update_imu q (gyro_rate (gcomp g) frame2) (acc_counts frame2)
                           (Some delta) in
                send opts g q
            end
        end
    end.

(** How the loop stands once the iterations handed to it are used up:
    the frames sent, oldest first, and the state, or [None] after an
    exception. *)
Fixpoint fusion_loop (opts : options) (g : globals) (q : ahrs)
  (reads : list (option (list byte))) : list (list byte) * option (globals * ahrs) :=
  match reads with
  | [] => ([], Some (g, q))
  | data :: rest =>
      match fusion_body opts g q data with
      | FusContinue g' q' => fusion_loop opts g' q' rest
      | FusSent g' q' output =>
          let '(sent, final) := fusion_loop opts g' q' rest in
          (output :: sent, final)
      | FusRaise => ([], None)
      end
  end.

(** How a run stands once the reads handed to it are used up. *)
Inductive run_result : Type :=
| RunCalibrating (g : globals) (comptime : float)   (* still in the first loop *)
| RunFusing (sent : list (list byte)) (g : globals) (q : ahrs)
| RunRaised (sent : list (list byte))               (* an exception ended the run *)
| RunExit.                                          (* no loop entered: lines 236-238 *)

(** The script from line 134 on.  [device] tells whether a PSVR was found
    by the enumeration of lines 71-77. *)
Definition main (opts : options) (device : bool)
  (reads : list (option (list byte))) : run_result :=
  let Sensor := negb (sim opts) && device in
  match calibration Sensor opts reads with
  | Calibrated g rest =>
      if Sensor || sim opts then
        match fusion_loop opts g ahrs_init rest with
        | (sent, Some (g', q)) => RunFusing sent g' q
        | (sent, None) => RunRaised sent
        end
      else RunExit
  | Calibrating g comptime => RunCalibrating g comptime
  | CalibrationRaised => RunRaised []
  end.

End Fusion.

(* ================================================================== *)
(** * Sensor reports for the examples *)
(* ================================================================== *)

(** The sixteen bytes of a sub-frame. *)
Definition frame_bytes (f : frame) : list byte :=
  let '(g0, g1, g2) := gyro f in
  let '(a0, a1, a2) := acc f in
  le_encode 4 (timestamp f)
  ++ le_encode 2 g0 ++ le_encode 2 g1 ++ le_encode 2 g2
  ++ le_encode 2 a0 ++ le_encode 2 a1 ++ le_encode 2 a2.

(** A 64-byte report carrying two sub-frames at offsets 16 and 32. *)
Definition report (f1 f2 : frame) : list byte :=
  repeat x00 16 ++ frame_bytes f1 ++ frame_bytes f2 ++ repeat x00 16.

(** A sub-frame at rest: only its timestamp set. *)
Definition still (t : Z) : frame :=
  {| timestamp := t; gyro := (0, 0, 0); acc := (0, 0, 0) |}.

(* ================================================================== *)
(** * The quantities the specification names *)
(* ================================================================== *)

(** The two sub-frames of a report, as both loops decode them. *)
Definition decode (data : list byte) : option (frame * frame) :=
  match sensor_parse (slice data 16 32), sensor_parse (slice data 32 48) with
  | Some f1, Some f2 => Some (f1, f2)
  | _, _ => None
  end.

(** The packets among a sequence of reads: absent reads yield none. *)
Fixpoint packets (reads : list (option (list byte))) : list (frame * frame) :=
  match reads with
  | [] => []
  | None :: rest => packets rest
  | Some data :: rest =>
      match decode data with
      | Some p => p :: packets rest
      | None => packets rest
      end
  end.

(** The reconciled deltas of a sequence of raw timestamps that follows the
    retained timestamp [time2]: the timestamps come in pairs, the first
    and the second sub-frame of each report. *)
Fixpoint reconcile (time2 : Z) (ts : list Z) : list float :=
  match ts with
  | [] => []
  | [time1] => [delta_first time1 time2]
  | time1 :: t2 :: rest =>
      delta_first time1 time2 :: delta_second time1 t2 :: reconcile t2 rest
  end.

(** The raw timestamps of a sequence of packets, in the order received. *)
Definition timestamps (pkts : list (frame * frame)) : list Z :=
  flat_map (fun p => [timestamp (fst p); timestamp (snd p)]) pkts.

(** The summed angular rate of a sequence of packets, on top of [sum]. *)
Definition rate_sum (sum : ndarray) (pkts : list (frame * frame)) : ndarray :=
  fold_left (fun s p => np_add (np_add s (IntArr (gyro (fst p))))
                               (IntArr (gyro (snd p)))) pkts sum.

(** The exact sum of the gyro counts of a sequence of packets, axis by
    axis, on top of [sum]. *)
Definition gyro_total (sum : ivec) (pkts : list (frame * frame)) : ivec :=
  fold_left (fun s p => vzip Z.add (vzip Z.add s (gyro (fst p))) (gyro (snd p)))
    pkts sum.

(** The accumulated seconds of a sequence of packets that follows the
    retained timestamp [time2], on top of [seconds]. *)
Fixpoint elapsed (time2 : Z) (seconds : float) (pkts : list (frame * frame))
  : float :=
  match pkts with
  | [] => seconds
  | (f1, f2) :: rest =>
      elapsed (timestamp f2)
        (seconds + delta_first (timestamp f1) time2
                 + delta_second (timestamp f1) (timestamp f2))%float rest
  end.

(** The timestamp retained after a sequence of packets: that of the
    second sub-frame of the last one, [time2] if there is none. *)
Definition retained (time2 : Z) (pkts : list (frame * frame)) : Z :=
  last (map (fun p => timestamp (snd p)) pkts) time2.

(** The nominal interval of the first sample, 500 microseconds: the float
    Python writes 0.0005. *)
Definition nominal_delta : float := 0x1.0624dd2f1a9fcp-11%float.

(** [n] microseconds in seconds. *)
Definition usec (n : Z) : float := true_div n 1000000.

(** The scale the script applies to a gyro count, in radians per second. *)
Definition gyro_scale : float :=
  ((1998 / float_of_Z (2 ^ 15)) * (np_pi / 180))%float.

(** A raw 24-bit counter value. *)
Definition raw24 (t : Z) : Prop := 0 <= t < 2 ^ 24.

(** A signed 16-bit value. *)
Definition int16 (z : Z) : Prop := - 2 ^ 15 <= z < 2 ^ 15.

(** A vector of signed 16-bit values. *)
Definition int16_vec (v : ivec) : Prop :=
  let '(a, b, c) := v in int16 a /\ int16 b /\ int16 c.

(** A report both loops can decode. *)
Definition decodable (r : option (list byte)) : Prop :=
  match r with
  | Some data => decode data <> None
  | None => True
  end.

(** The bytes a parser takes off the stream. *)
Definition consumes {A} (p : parser A) (n : nat) : Prop :=
  forall s a s', p s = Some (a, s') -> length s = (n + length s')%nat.

(** The deltas a log records, oldest first. *)
Definition deltas (log : list call) : list (option float) :=
  rev (map snd log).

(** Counts times a scale, the third axis negated. *)
Definition scaled_rate (scale : float) (counts : fvec) : ndarray :=
  let '(x, y, z) := counts in
  FloatArr (x * scale, y * scale, z * (- scale))%float.

(** The scale of a range of 250 degrees per second over 2^15 counts. *)
Definition scale_250 : float :=
  ((250 / float_of_Z (2 ^ 15)) * (np_pi / 180))%float.

(** The bytes [Float32l] builds for a float it can pack. *)
Definition Float32l_bytes (x : float) : list byte :=
  match Float32l_build x with
  | Some b => b
  | None => []
  end.

(** The twelve header bytes of a frame of type [task]: version 2, the
    type, the declared length 24, little-endian. *)
Definition header_bytes (task : byte) : list byte :=
  [x02; x00; x00; x00] ++ [task; x00; x00; x00] ++ [x18; x00; x00; x00].

(** A float that is a zero, a positive finite number or plus infinity. *)
Definition sf_nonneg (x : spec_float) : Prop :=
  match x with
  | S754_zero _ => True
  | S754_infinity s | S754_finite s _ _ => s = false
  | S754_nan => False
  end.

(* ================================================================== *)
(** * Further quantities: the decoder *)
(* ================================================================== *)

(** A sub-frame whose fields fit the widths of the sensor struct. *)
Definition well_formed (f : frame) : Prop :=
  0 <= timestamp f < 2 ^ 32 /\ int16_vec (gyro f) /\ int16_vec (acc f).

(** A 12-bit count as the loop hands it to the filter: between -2048 and
    2048. *)
Definition count12 (z : Z) : Prop := - 2048 <= z <= 2048.

(** The call the loop makes in simulation (line 186). *)
Definition sim_call : call := (IntArr (0, 1, 0), IntArr (0, 1, 0), None).

(** The calls the fusion loop makes to the filter for a sequence of
    packets that follows the retained timestamp [time2], oldest first: two
    for each packet. *)
Fixpoint filter_calls (gcomp : ndarray) (time2 : Z) (pkts : list (frame * frame))
  : list call :=
  match pkts with
  | [] => []
  | (f1, f2) :: rest =>
      (gyro_rate gcomp f1, acc_counts f1,
       Some (delta_first (timestamp f1) time2))
      :: (gyro_rate gcomp f2, acc_counts f2,
          Some (delta_second (timestamp f1) (timestamp f2)))
      :: filter_calls gcomp (timestamp f2) rest
  end.

(** A float [struct.pack("<f")] accepts. *)
Definition packable (x : float) : Prop := Float32l_build x <> None.

(** A float of magnitude at most 2^64. *)
Definition moderate (x : float) : Prop := (abs x <=? 0x1p64)%float = true.

(* ================================================================== *)
(** * The addresses the script connects to (lines 83 and 107-108) *)
(* ================================================================== *)

Module Endpoint.

Import Ascii String.
Local Open Scope string_scope.

(** [s.split(sep)] for a separator of one character: the parts between
    the separators, at least one. *)
Fixpoint split (sep : ascii) (s : string) : list string :=
  match s with
  | EmptyString => [EmptyString]
  | String c s' =>
      if Ascii.eqb c sep then EmptyString :: split sep s'
      else match split sep s' with
           | p :: ps => String c p :: ps
           | [] => [String c EmptyString]
           end
  end.

(** Line 83, the control channel. *)
Definition control_address (server : string) : string :=
  "tcp://" ++ server ++ ":38219".

(** Line 108, ['tcp://' + options.server + ":" + str(endpoint.split(':')[-1])]. *)
Definition headset_address (server endpoint : string) : string :=
  "tcp://" ++ server ++ ":" ++ List.last (split ":" endpoint) EmptyString.

(** Whether a character occurs in a string. *)
Fixpoint occurs (c : ascii) (s : string) : bool :=
  match s with
  | EmptyString => false
  | String c' s' => Ascii.eqb c' c || occurs c s'
  end.

(** How many times a character occurs in a string. *)
Fixpoint count (c : ascii) (s : string) : nat :=
  match s with
  | EmptyString => 0
  | String c' s' => (if Ascii.eqb c' c then 1 else 0) + count c s'
  end.

End Endpoint.

(* ================================================================== *)
(** * Further quantities: calibration *)
(* ================================================================== *)

(** A packet both sub-frames of which carry the gyro counts [v]. *)
Definition steady (v : ivec) (p : frame * frame) : Prop :=
  gyro (fst p) = v /\ gyro (snd p) = v.

(** A packet of well-formed sub-frames that both carry the timestamp [t]. *)
Definition stuck (t : Z) (p : frame * frame) : Prop :=
  well_formed (fst p) /\ well_formed (snd p) /\
  timestamp (fst p) = t /\ timestamp (snd p) = t.

(** The filter's outputs are of magnitude at most 2^64. *)
Definition moderate_outputs {ahrs : Type} `{Filter ahrs} (q : ahrs) : Prop :=
  (let '(y, p, r) := yaw_pitch_roll q in moderate y /\ moderate p /\ moderate r) /\
  (let '(w, x, y, z) := elements q in
   moderate w /\ moderate x /\ moderate y /\ moderate z).

(* ================================================================== *)
(** * Signs of the floats the reconciler computes *)
(* ================================================================== *)

Section FloatSign.

Lemma shr_1_nonneg mrs : 0 <= shr_m mrs -> 0 <= shr_m (shr_1 mrs).
Proof.
  destruct mrs as [m r s]; simpl.
  destruct m as [|p|p]; simpl; try lia; destruct p; simpl; lia.
Qed.

Lemma iter_shr_1_nonneg p :
  forall mrs, 0 <= shr_m mrs -> 0 <= shr_m (iter_pos shr_1 p mrs).
Proof.
  induction p as [p IH|p IH|]; intros mrs Hm; simpl.
  - apply IH, IH, shr_1_nonneg, Hm.
  - apply IH, IH, Hm.
  - apply shr_1_nonneg, Hm.
Qed.

Lemma shr_fexp_nonneg pr em m e l :
  0 <= m -> 0 <= shr_m (fst (shr_fexp pr em m e l)).
Proof.
  intros Hm. unfold shr_fexp, shr.
  assert (H0 : 0 <= shr_m (shr_record_of_loc m l))
    by (destruct l as [|[]]; simpl; exact Hm).
  destruct (fexp pr em (Zdigits2 m + e) - e); simpl; auto.
  apply iter_shr_1_nonneg, H0.
Qed.

Lemma round_nearest_even_nonneg m l : 0 <= m -> 0 <= round_nearest_even m l.
Proof.
  intros Hm. destruct l as [|[]]; simpl; try lia.
  destruct (Z.even m); lia.
Qed.

Lemma binary_round_aux_nonneg pr em mx ex lx :
  0 <= mx -> sf_nonneg (binary_round_aux pr em false mx ex lx).
Proof.
  intros Hm. unfold binary_round_aux.
  pose proof (shr_fexp_nonneg pr em mx ex lx Hm) as H1.
  destruct (shr_fexp pr em mx ex lx) as [mrs' e']. simpl in H1.
  pose proof (shr_fexp_nonneg pr em _ e' loc_Exact
                (round_nearest_even_nonneg _ (loc_of_shr_record mrs') H1)) as H2.
  destruct (shr_fexp pr em _ e' loc_Exact) as [mrs'' e'']. simpl in H2.
  destruct (shr_m mrs'') as [|p|p]; simpl; auto; try lia.
  destruct (e'' <=? em - pr); reflexivity.
Qed.

Lemma binary_round_nonneg pr em m e : sf_nonneg (binary_round pr em false m e).
Proof.
  unfold binary_round. destruct (shl_align _ _ _) as [mz ez].
  apply binary_round_aux_nonneg. lia.
Qed.

Lemma binary_normalize_nonneg pr em z e :
  0 <= z -> sf_nonneg (binary_normalize pr em z e false).
Proof.
  destruct z; simpl; intros Hz; auto; try lia. apply binary_round_nonneg.
Qed.

Lemma SFldexp_nonneg x e : sf_nonneg x -> sf_nonneg (SFldexp prec emax x e).
Proof.
  destruct x as [s|s| |s m ex]; simpl; auto.
  intros ->. apply binary_round_nonneg.
Qed.

Lemma of_uint63_nonneg k : sf_nonneg (Prim2SF (of_uint63 k)).
Proof.
  rewrite of_uint63_spec. apply binary_normalize_nonneg.
  apply Uint63.to_Z_bounded.
Qed.

Lemma SF2Prim_nonneg x : sf_nonneg x -> sf_nonneg (Prim2SF (SF2Prim x)).
Proof.
  destruct x as [s|s| |s m e]; simpl; try contradiction.
  - intros _. destruct s; vm_compute; exact I.
  - intros ->. vm_compute. reflexivity.
  - intros ->. rewrite Z_ldexp_spec. apply SFldexp_nonneg, of_uint63_nonneg.
Qed.

Lemma float_of_Z_nonneg z : 0 <= z -> sf_nonneg (Prim2SF (float_of_Z z)).
Proof.
  intros Hz. apply SF2Prim_nonneg, binary_normalize_nonneg, Hz.
Qed.

Lemma SFdiv_nonneg x my ey :
  sf_nonneg x -> sf_nonneg (SFdiv prec emax x (S754_finite false my ey)).
Proof.
  destruct x as [sx|sx| |sx mx ex]; simpl; try contradiction.
  - intros _. exact I.
  - intros ->. reflexivity.
  - intros ->. simpl. unfold SFdiv_core_binary.
    set (m' := match _ - _ - _ with Z0 => _ | Zpos _ => _ | Zneg _ => _ end).
    assert (Hm : 0 <= m').
    { subst m'. destruct (_ - _ - _); try lia. apply Z.shiftl_nonneg. lia. }
    pose proof (Z.div_pos m' (Zpos my) Hm ltac:(lia)) as Hq.
    unfold Z.div in Hq. destruct (Z.div_eucl m' (Z.pos my)) as [q r].
    apply binary_round_aux_nonneg. exact Hq.
Qed.

Lemma sf_nonneg_leb x : sf_nonneg (Prim2SF x) -> (0 <=? x)%float = true.
Proof.
  intros Hx. rewrite leb_spec.
  change (Prim2SF 0) with (S754_zero false).
  destruct (Prim2SF x) as [s|s| |s m e]; simpl in Hx |- *;
    try contradiction; subst; reflexivity.
Qed.

(** A non-negative number of microseconds is a non-negative float of
    seconds. *)
Lemma usec_nonneg n : 0 <= n -> (0 <=? usec n)%float = true.
Proof.
  intros Hn. apply sf_nonneg_leb. unfold usec, true_div. rewrite div_spec.
  replace (Prim2SF (float_of_Z 1000000))
    with (S754_finite false 8589934592000000 (-33))
    by (vm_compute; reflexivity).
  apply SFdiv_nonneg, float_of_Z_nonneg, Hn.
Qed.

End FloatSign.

(* ================================================================== *)
(** * The timestamp reconciler *)
(* ================================================================== *)

Lemma usec_500 : usec 500 = nominal_delta.
Proof. vm_compute. reflexivity. Qed.

(** The first delta, by cases on the retained timestamp. *)
Lemma delta_first_cases time1 time2 :
  delta_first time1 time2 =
    if time1 <? time2 then
      if time2 =? 2 ^ 24 then nominal_delta else usec (time1 - (time2 - 2 ^ 24))
    else if time2 =? 0 then nominal_delta else usec (time1 - time2).
Proof.
  unfold delta_first. change (Z.shiftl 1 24) with (2 ^ 24). fold (usec 500).
  rewrite usec_500.
  destruct (time1 <? time2).
  - destruct (Z.eqb_spec (time2 - 2 ^ 24) 0) as [E|E];
      destruct (Z.eqb_spec time2 (2 ^ 24)) as [E'|E']; try lia; reflexivity.
  - destruct (time2 =? 0); reflexivity.
Qed.

(** The second delta, by cases. *)
Lemma delta_second_cases time1 time2 :
  delta_second time1 time2 =
    if time2 <? time1 then usec (time2 - (time1 - 2 ^ 24)) else usec (time2 - time1).
Proof.
  unfold delta_second. change (Z.shiftl 1 24) with (2 ^ 24).
  destruct (time2 <? time1); reflexivity.
Qed.

Lemma nominal_delta_nonneg : (0 <=? nominal_delta)%float = true.
Proof. vm_compute. reflexivity. Qed.

Lemma delta_first_nonneg t_prev t_new :
  raw24 t_prev -> raw24 t_new -> (0 <=? delta_first t_new t_prev)%float = true.
Proof.
  unfold raw24. intros Hp Hn. rewrite delta_first_cases.
  destruct (Z.ltb_spec t_new t_prev).
  - destruct (t_prev =? 2 ^ 24); [apply nominal_delta_nonneg|apply usec_nonneg; lia].
  - destruct (t_prev =? 0); [apply nominal_delta_nonneg|apply usec_nonneg; lia].
Qed.

Lemma delta_second_nonneg t_prev t_new :
  raw24 t_prev -> raw24 t_new -> (0 <=? delta_second t_prev t_new)%float = true.
Proof.
  unfold raw24. intros Hp Hn. rewrite delta_second_cases.
  destruct (Z.ltb_spec t_new t_prev); apply usec_nonneg; lia.
Qed.

(** Every delta of a chain of raw 24-bit timestamps is non-negative. *)
Lemma reconcile_nonneg :
  forall ts time2, raw24 time2 -> Forall raw24 ts ->
    Forall (fun d => (0 <=? d)%float = true) (reconcile time2 ts).
Proof.
  fix IH 1. intros [|time1 [|t2 rest]] time2 H2 Hts; simpl.
  - constructor.
  - inversion Hts; subst. repeat constructor. now apply delta_first_nonneg.
  - inversion Hts as [|? ? H1 Hts']; subst. inversion Hts' as [|? ? H2' Hr]; subst.
    constructor; [now apply delta_first_nonneg|].
    constructor; [now apply delta_second_nonneg|].
    apply IH; assumption.
Qed.

(** C4.  For two raw timestamps of the 24-bit counter, the older one
    retained and the newer one just read, the elapsed interval the
    reconciler computes is never negative, for the first sub-frame of a
    report (against the timestamp retained from the previous report) as for
    the second (against the first); the two loops share these computations.
    When the newer timestamp is numerically below the older one, 2^24 has
    been subtracted from the older one before the difference is taken. *)
Theorem delta_never_negative (t_prev t_new : Z) :
  raw24 t_prev -> raw24 t_new ->
  (0 <=? delta_first t_new t_prev)%float = true /\
  (0 <=? delta_second t_prev t_new)%float = true /\
  (t_new < t_prev ->
     delta_first t_new t_prev = usec (t_new - (t_prev - 2 ^ 24)) /\
     delta_second t_prev t_new = usec (t_new - (t_prev - 2 ^ 24)) /\
     0 < t_new - (t_prev - 2 ^ 24)).
Proof.
  intros Hp Hn. split; [|split].
  - now apply delta_first_nonneg.
  - now apply delta_second_nonneg.
  - intros Hlt. unfold raw24 in *.
    rewrite delta_first_cases, delta_second_cases.
    destruct (Z.ltb_spec t_new t_prev); [|lia].
    destruct (Z.eqb_spec t_prev (2 ^ 24)); [lia|].
    repeat split; lia.
Qed.

Lemma delta_never_negative_witness :
  (0 <=? delta_first 5 16777215)%float = true /\
  (0 <=? delta_second 16777215 5)%float = true /\
  (5 < 16777215 ->
     delta_first 5 16777215 = usec (5 - (16777215 - 2 ^ 24)) /\
     delta_second 16777215 5 = usec (5 - (16777215 - 2 ^ 24)) /\
     0 < 5 - (16777215 - 2 ^ 24)).
Proof.
  apply (delta_never_negative 16777215 5); unfold raw24; lia.
Defined.

(* ================================================================== *)
(** * The packet decoder *)
(* ================================================================== *)

Lemma byte_to_Z_range b : 0 <= byte_to_Z b < 256.
Proof.
  unfold byte_to_Z. pose proof (Byte.to_N_bounded b) as Hb. lia.
Qed.

Lemma le_decode_range bs : 0 <= le_decode bs < 256 ^ Z.of_nat (length bs).
Proof.
  induction bs as [|b bs IH]; [simpl; lia|].
  cbn [le_decode length]. rewrite Nat2Z.inj_succ, Z.pow_succ_r by lia.
  pose proof (byte_to_Z_range b). lia.
Qed.

Lemma bind_Some {A B} (p : parser A) (k : A -> parser B) s b s' :
  bind p k s = Some (b, s') ->
  exists a s1, p s = Some (a, s1) /\ k a s1 = Some (b, s').
Proof.
  unfold bind. destruct (p s) as [[a s1]|]; [|discriminate].
  intros Hk. now exists a, s1.
Qed.

Lemma stream_read_Some n s bs s' :
  stream_read n s = Some (bs, s') ->
  length bs = n /\ s = bs ++ s'.
Proof.
  unfold stream_read. destruct (Nat.leb_spec n (length s)); [|discriminate].
  intros [= <- <-]. split.
  - apply firstn_length_le; assumption.
  - symmetry. apply firstn_skipn.
Qed.

Lemma Int32ul_range s t s' : Int32ul s = Some (t, s') -> 0 <= t < 2 ^ 32.
Proof.
  unfold Int32ul. intros Hb.
  apply bind_Some in Hb as (bs & s1 & Hr & Hk).
  apply stream_read_Some in Hr as [Hl _].
  injection Hk as <- _. pose proof (le_decode_range bs) as Hd.
  rewrite Hl in Hd. exact Hd.
Qed.

Lemma Int16sl_range s v s' : Int16sl s = Some (v, s') -> int16 v.
Proof.
  unfold Int16sl, int16. intros Hb.
  apply bind_Some in Hb as (bs & s1 & Hr & Hk).
  apply stream_read_Some in Hr as [Hl _].
  injection Hk as <- _. pose proof (le_decode_range bs) as Hd.
  rewrite Hl in Hd. change (256 ^ Z.of_nat 2) with (2 ^ 16) in Hd.
  change (Z.pow_pos 2 15) with (2 ^ 15). change (Z.pow_pos 2 16) with (2 ^ 16).
  destruct (Z.ltb_spec (le_decode bs) (2 ^ 15)); lia.
Qed.

Lemma Array3_Int16sl_range s v s' :
  Array3 Int16sl s = Some (v, s') -> int16_vec v.
Proof.
  unfold Array3. intros Hb.
  apply bind_Some in Hb as (a & s1 & Ha & Hb).
  apply bind_Some in Hb as (b & s2 & Hb & Hc).
  apply bind_Some in Hc as (c & s3 & Hc & Hk).
  injection Hk as <- _. unfold int16_vec.
  repeat split; eapply Int16sl_range; eassumption.
Qed.

(** What the decoder yields is in the range of its fields. *)
Lemma sensor_parse_range bs f :
  sensor_parse bs = Some f ->
  0 <= timestamp f < 2 ^ 32 /\ int16_vec (gyro f) /\ int16_vec (acc f).
Proof.
  unfold sensor_parse. destruct (sensor bs) as [[f' s']|] eqn:Hs; [|discriminate].
  intros [= ->]. unfold sensor in Hs.
  apply bind_Some in Hs as (t & s1 & Ht & Hs).
  apply bind_Some in Hs as (g & s2 & Hg & Hs).
  apply bind_Some in Hs as (a & s3 & Ha & Hk).
  injection Hk as <- _. cbn [timestamp gyro acc].
  split; [eapply Int32ul_range; eassumption|].
  split; eapply Array3_Int16sl_range; eassumption.
Qed.

Lemma stream_read_consumes n : consumes (stream_read n) n.
Proof.
  intros s bs s' Hr. apply stream_read_Some in Hr as [Hl ->].
  rewrite length_app. lia.
Qed.

Lemma ret_consumes {A} (a : A) : consumes (ret a) 0.
Proof. intros s b s' [= _ <-]. reflexivity. Qed.

Lemma bind_consumes {A B} (p : parser A) (k : A -> parser B) n m :
  consumes p n -> (forall a, consumes (k a) m) -> consumes (bind p k) (n + m).
Proof.
  intros Hp Hk s b s' Hb. apply bind_Some in Hb as (a & s1 & Ha & Hb).
  apply Hp in Ha. apply Hk in Hb. lia.
Qed.

Lemma Int32ul_consumes : consumes Int32ul 4.
Proof.
  change 4%nat with (4 + 0)%nat. apply bind_consumes.
  - apply stream_read_consumes.
  - intros bs. apply ret_consumes.
Qed.

Lemma Int16sl_consumes : consumes Int16sl 2.
Proof.
  change 2%nat with (2 + 0)%nat. apply bind_consumes.
  - apply stream_read_consumes.
  - intros bs. apply ret_consumes.
Qed.

Lemma Array3_consumes {A} (sub : parser A) n :
  consumes sub n -> consumes (Array3 sub) (n + (n + (n + 0))).
Proof.
  intros Hs. unfold Array3.
  repeat (apply bind_consumes; [exact Hs|intros ?]). apply ret_consumes.
Qed.

Lemma sensor_consumes : consumes sensor 16.
Proof.
  change 16%nat with (4 + (6 + (6 + 0)))%nat. unfold sensor.
  apply bind_consumes; [apply Int32ul_consumes|intros t].
  apply bind_consumes; [apply (Array3_consumes _ 2), Int16sl_consumes|intros g].
  apply bind_consumes; [apply (Array3_consumes _ 2), Int16sl_consumes|intros a].
  apply ret_consumes.
Qed.

(** The decoder needs its sixteen bytes. *)
Lemma sensor_parse_short bs : (length bs < 16)%nat -> sensor_parse bs = None.
Proof.
  intros Hl. unfold sensor_parse.
  destruct (sensor bs) as [[f s']|] eqn:Hs; [|reflexivity].
  apply sensor_consumes in Hs. lia.
Qed.

Lemma slice_length data i j :
  length (slice data i j) = Nat.min (j - i) (length data - i).
Proof. unfold slice. now rewrite length_firstn, length_skipn. Qed.

(** A report of fewer than 48 bytes does not decode. *)
Lemma decode_short data : (length data < 48)%nat -> decode data = None.
Proof.
  intros Hl. unfold decode.
  destruct (sensor_parse (slice data 16 32)) as [f1|]; [|reflexivity].
  rewrite (sensor_parse_short (slice data 32 48)); [reflexivity|].
  rewrite slice_length. lia.
Qed.

Lemma decode_range data f1 f2 :
  decode data = Some (f1, f2) ->
  0 <= timestamp f1 < 2 ^ 32 /\ 0 <= timestamp f2 < 2 ^ 32 /\
  int16_vec (gyro f1) /\ int16_vec (gyro f2).
Proof.
  unfold decode.
  destruct (sensor_parse _) as [a|] eqn:H1; [|discriminate].
  destruct (sensor_parse (slice data 32 48)) as [b|] eqn:H2; [|discriminate].
  intros [= -> ->].
  apply sensor_parse_range in H1, H2. tauto.
Qed.

Lemma decode_parses data f1 f2 :
  decode data = Some (f1, f2) <->
  sensor_parse (slice data 16 32) = Some f1 /\
  sensor_parse (slice data 32 48) = Some f2.
Proof.
  unfold decode.
  destruct (sensor_parse (slice data 16 32)), (sensor_parse (slice data 32 48));
    split; try intros [= -> ->]; try intros [[= ->] [= ->]]; auto;
    try discriminate; intros [? ?]; discriminate.
Qed.

(* ================================================================== *)
(** * The loop bodies on a decoded report *)
(* ================================================================== *)

Lemma calibration_body_decoded g comptime data f1 f2 :
  decode data = Some (f1, f2) ->
  calibration_body g comptime (Some data) =
    let seconds :=
      (comptime + delta_first (timestamp f1) (time2 g)
                + delta_second (timestamp f1) (timestamp f2))%float in
    let sum := np_add (np_add (gcomp g) (IntArr (gyro f1))) (IntArr (gyro f2)) in
    if float_gt seconds 5
    then CalBreak {| time2 := timestamp f2;
                     gcomp := np_div_scalar (np_mul sum GYRO_FACTOR) seconds |}
    else CalNext {| time2 := timestamp f2; gcomp := sum |} seconds.
Proof.
  intros Hd. apply decode_parses in Hd as [H1 H2].
  unfold calibration_body. rewrite H1, H2. reflexivity.
Qed.

Lemma calibration_body_undecoded g comptime data :
  decode data = None -> calibration_body g comptime (Some data) = CalRaise.
Proof.
  unfold decode, calibration_body.
  destruct (sensor_parse (slice data 16 32)); [|reflexivity].
  destruct (sensor_parse (slice data 32 48)); [discriminate|reflexivity].
Qed.

Section BodyLemmas.

Context {ahrs : Type} `{Filter ahrs}.

Lemma fusion_body_decoded opts g (q : ahrs) data f1 f2 :
  sim opts = false ->
  decode data = Some (f1, f2) ->
  fusion_body opts g q (Some data) =
    send opts {| time2 := timestamp f2; gcomp := gcomp g |}
      (update_imu
         (update_imu q (gyro_rate (gcomp g) f1) (acc_counts f1)
            (Some (delta_first (timestamp f1) (time2 g))))
         (gyro_rate (gcomp g) f2) (acc_counts f2)
         (Some (delta_second (timestamp f1) (timestamp f2)))).
Proof.
  intros Hs Hd. apply decode_parses in Hd as [H1 H2].
  unfold fusion_body. rewrite Hs, H1, H2. reflexivity.
Qed.

Lemma fusion_body_undecoded opts g (q : ahrs) data :
  sim opts = false ->
  decode data = None -> fusion_body opts g q (Some data) = FusRaise.
Proof.
  intros Hs. unfold decode, fusion_body. rewrite Hs.
  destruct (sensor_parse (slice data 16 32)); [|reflexivity].
  destruct (sensor_parse (slice data 32 48)); [discriminate|reflexivity].
Qed.

(** The fusion loop never assigns [gcomp]. *)
Lemma fusion_body_gcomp opts g (q : ahrs) data g' q' out :
  fusion_body opts g q data = FusSent g' q' out \/
  fusion_body opts g q data = FusContinue g' q' ->
  gcomp g' = gcomp g.
Proof.
  unfold fusion_body, send.
  destruct (sim opts).
  - destruct (output_build _ _); intros [Hb|Hb]; try discriminate.
    now injection Hb as <- _ _.
  - destruct data as [data|].
    + destruct (sensor_parse (slice data 16 32)); [|intros [?|?]; discriminate].
      destruct (sensor_parse (slice data 32 48)); [|intros [?|?]; discriminate].
      destruct (output_build _ _); intros [Hb|Hb]; try discriminate.
      now injection Hb as <- _ _.
    + intros [Hb|Hb]; try discriminate. now injection Hb as <- _.
Qed.

Lemma fusion_loop_gcomp opts reads :
  forall g (q : ahrs) sent g' q',
    fusion_loop opts g q reads = (sent, Some (g', q')) -> gcomp g' = gcomp g.
Proof.
  induction reads as [|data rest IH]; intros g q sent g' q'; simpl.
  - now intros [= _ <- _].
  - destruct (fusion_body opts g q data) as [g1 q1|g1 q1 out|] eqn:Hb.
    + intros Hl. apply IH in Hl. rewrite Hl.
      eapply fusion_body_gcomp with (out := []). right. exact Hb.
    + destruct (fusion_loop opts g1 q1 rest) as [sent1 final] eqn:Hl.
      intros [= _ ->]. apply IH in Hl. rewrite Hl.
      eapply fusion_body_gcomp. left. exact Hb.
    + discriminate.
Qed.

End BodyLemmas.

(** With the recording filter a frame is always built. *)
Lemma recorder_output opts (log : list call) :
  exists out, output_build opts log = Some out /\ length out = 76%nat.
Proof.
  unfold output_build. cbn [yaw_pitch_roll elements Recorder].
  destruct (angle opts); vm_compute; eexists; split; reflexivity.
Qed.

Lemma fusion_body_recorded opts g (log : list call) data f1 f2 :
  sim opts = false ->
  decode data = Some (f1, f2) ->
  exists out,
    fusion_body opts g log (Some data) =
      FusSent {| time2 := timestamp f2; gcomp := gcomp g |}
        ((gyro_rate (gcomp g) f2, acc_counts f2,
          Some (delta_second (timestamp f1) (timestamp f2)))
         :: (gyro_rate (gcomp g) f1, acc_counts f1,
             Some (delta_first (timestamp f1) (time2 g)))
         :: log) out.
Proof.
  intros Hs Hd. rewrite (fusion_body_decoded opts g log data f1 f2 Hs Hd).
  unfold send. cbn [update_imu Recorder].
  destruct (recorder_output opts
              ((gyro_rate (gcomp g) f2, acc_counts f2,
                Some (delta_second (timestamp f1) (timestamp f2)))
               :: (gyro_rate (gcomp g) f1, acc_counts f1,
                   Some (delta_first (timestamp f1) (time2 g))) :: log))
    as (out & -> & _).
  now exists out.
Qed.

Lemma last_cons {A} (a : A) l d : last (a :: l) d = last l a.
Proof.
  revert a d. induction l as [|b l IH]; intros a d; [reflexivity|].
  change (last (a :: b :: l) d) with (last (b :: l) d).
  rewrite (IH b d), (IH b a). reflexivity.
Qed.

(** The fusion loop hands the filter the reconciled deltas of the raw
    timestamps it reads, and retains the last of them. *)
Lemma fusion_loop_recorded opts reads :
  sim opts = false ->
  forall g (log : list call),
    Forall decodable reads ->
    exists sent log',
      fusion_loop opts g log reads =
        (sent, Some ({| time2 := retained (time2 g) (packets reads);
                        gcomp := gcomp g |}, log' ++ log)) /\
      deltas log' = map Some (reconcile (time2 g) (timestamps (packets reads))) /\
      length sent = length (packets reads).
Proof.
  intros Hs. induction reads as [|r rest IH]; intros g log Hall.
  - exists [], []. destruct g; repeat split; reflexivity.
  - inversion Hall as [|? ? Hr Hrest]; subst.
    destruct r as [data|].
    + destruct (decode data) as [[f1 f2]|] eqn:Hd;
        [|unfold decodable in Hr; congruence].
      destruct (fusion_body_recorded opts g log data f1 f2 Hs Hd) as (out & Hb).
      cbn [fusion_loop packets]. rewrite Hb, Hd.
      edestruct IH as (sent & log' & Hl & Hdl & Hlen); [exact Hrest|].
      rewrite Hl. cbn [time2 gcomp] in *.
      exists (out :: sent),
        (log' ++ [(gyro_rate (gcomp g) f2, acc_counts f2,
                   Some (delta_second (timestamp f1) (timestamp f2)));
                  (gyro_rate (gcomp g) f1, acc_counts f1,
                   Some (delta_first (timestamp f1) (time2 g)))]).
      split; [|split].
      * unfold retained. cbn [map]. rewrite last_cons.
        rewrite <- app_assoc. reflexivity.
      * unfold deltas in *. rewrite map_app, rev_app_distr.
        cbn [map rev app snd timestamps flat_map fst reconcile].
        do 2 f_equal. exact Hdl.
      * simpl. now rewrite Hlen.
    + cbn [fusion_loop packets]. unfold fusion_body. rewrite Hs.
      apply IH. exact Hrest.
Qed.

(** X6.  Every delta the fusion loop hands the filter is non-negative
    when the timestamps are raw 24-bit counter values, whatever absent
    reads come in between. *)
Lemma fusion_loop_deltas_nonneg opts reads g (log : list call) :
  sim opts = false ->
  Forall decodable reads ->
  raw24 (time2 g) -> Forall raw24 (timestamps (packets reads)) ->
  exists sent g' log',
    fusion_loop opts g log reads = (sent, Some (g', log' ++ log)) /\
    Forall (fun d => exists x, d = Some x /\ (0 <=? x)%float = true) (deltas log').
Proof.
  intros Hs Hall H2 Hts.
  destruct (fusion_loop_recorded opts reads Hs g log Hall)
    as (sent & log' & Hl & Hd & _).
  eexists sent, _, log'. split; [exact Hl|].
  rewrite Hd. apply Forall_map.
  eapply Forall_impl; [|apply reconcile_nonneg; eassumption].
  intros d Hd0. now exists d.
Qed.

(* ================================================================== *)
(** * The angular rate handed to the filter *)
(* ================================================================== *)

(** Two concrete floats differ: their comparison computes to [false]. *)
Ltac float_neq :=
  let E := fresh "E" in
  intros E;
  match type of E with
  | ?x = ?y => apply (f_equal (fun v => (v =? y)%float)) in E
  end;
  vm_compute in E; discriminate E.

Lemma GYRO_FACTOR_value :
  GYRO_FACTOR = FloatArr (gyro_scale, gyro_scale, (- gyro_scale)%float).
Proof. vm_compute. reflexivity. Qed.

Lemma gyro_rate_scaled gc f :
  gyro_rate gc f = scaled_rate gyro_scale (as_float (np_sub (IntArr (gyro f)) gc)).
Proof.
  unfold gyro_rate. rewrite GYRO_FACTOR_value.
  destruct (np_sub (IntArr (gyro f)) gc) as [[[a b] c]|[[a b] c]]; reflexivity.
Qed.

Lemma wrap_int64_small z : - 2 ^ 63 <= z < 2 ^ 63 -> wrap_int64 z = z.
Proof. intros Hz. unfold wrap_int64. rewrite Z.mod_small; lia. Qed.

Lemma int16_vec_sub_zero v :
  int16_vec v -> np_sub (IntArr v) (IntArr (0, 0, 0)) = IntArr v.
Proof.
  destruct v as [[a b] c]. unfold int16_vec, int16. intros (Ha & Hb & Hc).
  unfold np_sub, np_binop, vzip. rewrite !Z.sub_0_r.
  rewrite !wrap_int64_small by lia. reflexivity.
Qed.

(** C1, as the code has it.  For every report the fusion loop decodes, the
    angular rate handed to the orientation filter with each sub-frame is
    the raw signed 16-bit gyro counts less [gcomp], times a fixed scale,
    the third axis negated; the scale is (1998 / 2^15) * (pi / 180) radians
    per second per count.  Without calibration [gcomp] is zero and the rate
    is the counts times the scale; after calibration [gcomp] is a float
    vector subtracted from the counts before scaling. *)
Theorem gyro_rate_passed opts g (log : list call) data f1 f2 :
  sim opts = false ->
  decode data = Some (f1, f2) ->
  let less_bias f := as_float (np_sub (IntArr (gyro f)) (gcomp g)) in
  (exists g' out a1 a2 d1 d2,
     fusion_body opts g log (Some data) =
       FusSent g' ((scaled_rate gyro_scale (less_bias f2), a2, d2)
                   :: (scaled_rate gyro_scale (less_bias f1), a1, d1)
                   :: log) out) /\
  gyro_scale = ((1998 / 32768) * (np_pi / 180))%float /\
  (gcomp g = IntArr (0, 0, 0) ->
     less_bias f1 = vmap float_of_Z (gyro f1) /\
     less_bias f2 = vmap float_of_Z (gyro f2)) /\
  (forall bias, gcomp g = FloatArr bias ->
     less_bias f1 = vzip PrimFloat.sub (vmap float_of_Z (gyro f1)) bias /\
     less_bias f2 = vzip PrimFloat.sub (vmap float_of_Z (gyro f2)) bias).
Proof.
  intros Hs Hd less_bias. split; [|split; [|split]].
  - destruct (fusion_body_recorded opts g log data f1 f2 Hs Hd) as (out & Hb).
    rewrite Hb, !gyro_rate_scaled. repeat eexists.
  - vm_compute. reflexivity.
  - intros Hg. subst less_bias. cbv beta. rewrite Hg.
    apply decode_range in Hd as (_ & _ & H1 & H2).
    rewrite !int16_vec_sub_zero by assumption. split; reflexivity.
  - intros bias Hg. subst less_bias. cbv beta. rewrite Hg.
    destruct (gyro f1) as [[a b] c], (gyro f2) as [[a' b'] c'], bias as [[x y] z].
    split; reflexivity.
Qed.

Lemma gyro_rate_passed_witness :
  let opts := {| angle := false; sim := false; comp := false |} in
  let f1 := {| timestamp := 1000; gyro := (1, -2, 300); acc := (-16, 32767, -32768) |} in
  let f2 := still 1500 in
  let less_bias f := as_float (np_sub (IntArr (gyro f)) (gcomp globals_init)) in
  (exists g' out a1 a2 d1 d2,
     fusion_body opts globals_init [] (Some (report f1 f2)) =
       FusSent g' [(scaled_rate gyro_scale (less_bias f2), a2, d2);
                   (scaled_rate gyro_scale (less_bias f1), a1, d1)] out) /\
  gyro_scale = ((1998 / 32768) * (np_pi / 180))%float /\
  (gcomp globals_init = IntArr (0, 0, 0) ->
     less_bias f1 = vmap float_of_Z (gyro f1) /\
     less_bias f2 = vmap float_of_Z (gyro f2)) /\
  (forall bias, gcomp globals_init = FloatArr bias ->
     less_bias f1 = vzip PrimFloat.sub (vmap float_of_Z (gyro f1)) bias /\
     less_bias f2 = vzip PrimFloat.sub (vmap float_of_Z (gyro f2)) bias).
Proof.
  intros opts f1 f2.
  apply (gyro_rate_passed opts globals_init [] (report f1 f2) f1 f2).
  - reflexivity.
  - vm_compute. reflexivity.
Defined.

(** C1 as stated fails: for one count on each axis and no bias, the rate
    handed to the filter is on no axis the 250-degree scale, whatever the
    sign; it is about eight times as large. *)
Lemma gyro_scale_counterexample :
  exists x y z,
    gyro_rate (gcomp globals_init)
      {| timestamp := 0; gyro := (1, 1, 1); acc := (0, 0, 0) |}
    = FloatArr (x, y, z) /\
    abs x <> scale_250 /\ abs y <> scale_250 /\ abs z <> scale_250 /\
    (7 * scale_250 <? abs x)%float = true.
Proof.
  eexists _, _, _. split; [vm_compute; reflexivity|].
  split; [float_neq|]. split; [float_neq|]. split; [float_neq|].
  vm_compute. reflexivity.
Qed.

(* ================================================================== *)
(** * The reconciler on the timestamps of the wrap-around example *)
(* ================================================================== *)

(** C3, as the code has it.  The raw timestamps 16,777,215, 5 and 20 that
    follow the retained 16,777,200 are three successive pairs; their
    reconciled deltas are positive and are the true gaps of 15, 6 and 15
    microseconds, across the 2^24 boundary; these are the deltas the
    fusion loop hands the filter when it reads them. *)
Theorem wraparound_deltas :
  reconcile 16777200 [16777215; 5; 20] = [usec 15; usec 6; usec 15] /\
  Forall (fun d => (0 <? d)%float = true) (reconcile 16777200 [16777215; 5; 20]) /\
  (exists sent g log,
     fusion_loop {| angle := false; sim := false; comp := false |}
       {| time2 := 16777200; gcomp := IntArr (0, 0, 0) |} ([] : list call)
       [Some (report (still 16777215) (still 5));
        Some (report (still 20) (still 35))]
     = (sent, Some (g, log)) /\
     deltas log = map Some [usec 15; usec 6; usec 15; usec 15]).
Proof.
  split; [vm_compute; reflexivity|]. split; [repeat constructor|].
  eexists _, _, _. split; vm_compute; reflexivity.
Qed.

(** C3 as stated fails: the sequence has no gap of 10 microseconds and
    only three successive pairs.  With all four timestamps read from the
    initial state, the first delta is the nominal 500 microseconds. *)
Lemma wraparound_deltas_counterexample :
  reconcile 16777200 [16777215; 5; 20] <> [usec 15; usec 10; usec 6; usec 15] /\
  reconcile (time2 globals_init) [16777200; 16777215; 5; 20]
    = [usec 500; usec 15; usec 6; usec 15] /\
  reconcile (time2 globals_init) [16777200; 16777215; 5; 20]
    <> [usec 15; usec 10; usec 6; usec 15].
Proof.
  split; [|split].
  - intros E. apply (f_equal (@length float)) in E. discriminate E.
  - vm_compute. reflexivity.
  - intros E.
    apply (f_equal (fun l => match l with
                             | d :: _ => (d =? usec 15)%float
                             | [] => true
                             end)) in E.
    vm_compute in E. discriminate E.
Qed.

(* ================================================================== *)
(** * The first sample of a run *)
(* ================================================================== *)

Lemma delta_first_no_predecessor time1 :
  0 <= time1 -> delta_first time1 0 = nominal_delta.
Proof.
  intros Ht. rewrite delta_first_cases.
  destruct (Z.ltb_spec time1 0); [lia|reflexivity].
Qed.

(** C5.  With no prior timestamp, the state a run starts in, the
    reconciler returns exactly the nominal 500 microseconds, the float
    0.0005, whatever the first raw timestamp is; a run that starts on a
    decodable report hands this delta to the first filter update. *)
Theorem first_sample_default (time1 : Z) opts data f1 f2 :
  0 <= time1 ->
  sim opts = false -> comp opts = false ->
  decode data = Some (f1, f2) ->
  delta_first time1 (time2 globals_init) = nominal_delta /\
  nominal_delta = true_div 500 1000000 /\
  (exists out g c2 r1 a1,
     main (ahrs := list call) opts true [Some data]
     = RunFusing [out] g [c2; (r1, a1, Some nominal_delta)]).
Proof.
  intros Ht Hs Hc Hd. split; [|split].
  - apply delta_first_no_predecessor, Ht.
  - vm_compute. reflexivity.
  - unfold main, calibration. rewrite Hs, Hc. cbn [negb andb orb fusion_loop].
    destruct (fusion_body_recorded opts globals_init
                (ahrs_init (ahrs := list call)) data f1 f2 Hs Hd) as (out & ->).
    cbn [time2 globals_init].
    apply decode_range in Hd as ((Ht1 & _) & _).
    rewrite (delta_first_no_predecessor _ Ht1).
    repeat eexists.
Qed.

Lemma first_sample_default_witness :
  delta_first 16777215 (time2 globals_init) = nominal_delta /\
  nominal_delta = true_div 500 1000000 /\
  (exists out g c2 r1 a1,
     main (ahrs := list call) {| angle := true; sim := false; comp := false |}
       true [Some (report (still 16777215) (still 499))]
     = RunFusing [out] g [c2; (r1, a1, Some nominal_delta)]).
Proof.
  apply (first_sample_default 16777215
           {| angle := true; sim := false; comp := false |}
           (report (still 16777215) (still 499))
           (still 16777215) (still 499)).
  - lia.
  - reflexivity.
  - reflexivity.
  - vm_compute. reflexivity.
Defined.

(* ================================================================== *)
(** * Absent and short reads *)
(* ================================================================== *)

(** C9, as the code has it.  A read that yields no block ([None]) is
    discarded and the source polled again at the next iteration, in the
    calibration loop as in the fusion loop, the state unchanged and no
    exception raised.  The guard does not cover a short block: one of
    fewer than 48 bytes makes the decode step raise out of either loop. *)
Theorem absent_read_retried {ahrs : Type} `{Filter ahrs}
  opts g (q : ahrs) comptime rest data :
  sim opts = false ->
  (length data < 48)%nat ->
  fusion_body opts g q None = FusContinue g q /\
  fusion_loop opts g q (None :: rest) = fusion_loop opts g q rest /\
  calibration_body g comptime None = CalNext g comptime /\
  calibration_loop g comptime (None :: rest) = calibration_loop g comptime rest /\
  fusion_body opts g q (Some data) = FusRaise /\
  calibration_body g comptime (Some data) = CalRaise.
Proof.
  intros Hs Hl.
  assert (Hb : fusion_body opts g q None = FusContinue g q)
    by (unfold fusion_body; now rewrite Hs).
  split; [exact Hb|]. split; [cbn [fusion_loop]; now rewrite Hb|].
  split; [reflexivity|]. split; [reflexivity|].
  pose proof (decode_short data Hl) as Hd.
  split; [now apply fusion_body_undecoded|now apply calibration_body_undecoded].
Qed.

Lemma absent_read_retried_witness :
  let opts := {| angle := false; sim := false; comp := true |} in
  let rest := [Some (report (still 1) (still 501))] in
  let data := repeat x00 47 in
  fusion_body opts globals_init ([] : list call) None = FusContinue globals_init [] /\
  fusion_loop opts globals_init ([] : list call) (None :: rest)
    = fusion_loop opts globals_init [] rest /\
  calibration_body globals_init 0 None = CalNext globals_init 0 /\
  calibration_loop globals_init 0 (None :: rest) = calibration_loop globals_init 0 rest /\
  fusion_body opts globals_init ([] : list call) (Some data) = FusRaise /\
  calibration_body globals_init 0 (Some data) = CalRaise.
Proof.
  intros opts rest data.
  apply (absent_read_retried opts globals_init ([] : list call) 0%float rest data).
  - reflexivity.
  - vm_compute. apply le_n.
Defined.

(** C9 as stated fails on a short block: an empty block is not [None],
    its decode raises, the loop is left and the report that follows is
    never polled. *)
Lemma short_read_counterexample :
  let opts := {| angle := false; sim := false; comp := false |} in
  let full := Some (report (still 1) (still 501)) in
  fusion_body opts globals_init ([] : list call) (Some []) = FusRaise /\
  fusion_loop opts globals_init ([] : list call) [Some []; full] = ([], None) /\
  main (ahrs := list call) opts true [Some []; full] = RunRaised [] /\
  (exists out g log, main (ahrs := list call) opts true [None; full]
                     = RunFusing [out] g log) /\
  calibration_loop globals_init 0 [Some []; full] = CalibrationRaised.
Proof.
  intros opts full. repeat split; try (vm_compute; reflexivity).
  vm_compute. repeat eexists.
Qed.

(* ================================================================== *)
(** * A retained timestamp of zero *)
(* ================================================================== *)

(** C10.  When the timestamp retained from the previous report is exactly
    0, a value the 24-bit counter takes, the reconciler returns the nominal
    0.0005 seconds for the first sub-frame of the next report, as it does
    with no predecessor at all, whatever the new timestamp: the test is on
    the truth value of the retained timestamp. *)
Theorem zero_timestamp_as_no_predecessor
  opts g (log : list call) data1 data2 f1 f2 f3 f4 :
  sim opts = false ->
  decode data1 = Some (f1, f2) ->
  timestamp f2 = 0 ->
  decode data2 = Some (f3, f4) ->
  delta_first (timestamp f3) (timestamp f2) = nominal_delta /\
  delta_first (timestamp f3) (timestamp f2)
    = delta_first (timestamp f3) (time2 globals_init) /\
  (exists sent g' c4 r3 a3 c2 c1,
     fusion_loop opts g log [Some data1; Some data2]
     = (sent, Some (g', c4 :: (r3, a3, Some nominal_delta) :: c2 :: c1 :: log))).
Proof.
  intros Hs Hd1 H0 Hd2.
  assert (Ht : 0 <= timestamp f3) by (apply decode_range in Hd2; lia).
  assert (E : delta_first (timestamp f3) (timestamp f2) = nominal_delta)
    by (rewrite H0; now apply delta_first_no_predecessor).
  split; [exact E|]. split.
  - rewrite E. symmetry. now apply delta_first_no_predecessor.
  - cbn [fusion_loop].
    destruct (fusion_body_recorded opts g log data1 f1 f2 Hs Hd1) as (out1 & ->).
    match goal with
    | |- context [fusion_body opts ?g1 ?l1 (Some data2)] =>
        destruct (fusion_body_recorded opts g1 l1 data2 f3 f4 Hs Hd2) as (out2 & ->)
    end.
    cbn [time2]. rewrite E. repeat eexists.
Qed.

Lemma zero_timestamp_as_no_predecessor_witness :
  let opts := {| angle := false; sim := false; comp := false |} in
  let data1 := report (still 16777000) (still 0) in
  let data2 := report (still 15) (still 515) in
  (delta_first 15 0 = nominal_delta /\
   delta_first 15 0 = delta_first 15 (time2 globals_init) /\
   (exists sent g' c4 r3 a3 c2 c1,
      fusion_loop opts globals_init ([] : list call) [Some data1; Some data2]
      = (sent, Some (g', [c4; (r3, a3, Some nominal_delta); c2; c1])))) /\
  usec (15 - 0) <> nominal_delta.
Proof.
  intros opts data1 data2. split.
  - apply (zero_timestamp_as_no_predecessor opts globals_init [] data1 data2
             (still 16777000) (still 0) (still 15) (still 515)).
    + reflexivity.
    + vm_compute. reflexivity.
    + reflexivity.
    + vm_compute. reflexivity.
  - float_neq.
Defined.

(* ================================================================== *)
(** * The calibration loop *)
(* ================================================================== *)

(** What the loop has done when it is left by its [break]: it consumed a
    prefix of the reads, the packets of which carried the accumulated time
    above 5 seconds, no shorter run of them having done so. *)
Lemma calibration_loop_break reads :
  forall g comptime g' rest,
    calibration_loop g comptime reads = Calibrated g' rest ->
    exists consumed,
      reads = consumed ++ rest /\
      packets consumed <> [] /\
      Forall decodable consumed /\
      time2 g' = retained (time2 g) (packets consumed) /\
      float_gt (elapsed (time2 g) comptime (packets consumed)) 5 = true /\
      (forall k, (1 <= k < length (packets consumed))%nat ->
         float_gt (elapsed (time2 g) comptime (firstn k (packets consumed))) 5
         = false) /\
      gcomp g' =
        np_div_scalar
          (np_mul (rate_sum (gcomp g) (packets consumed)) GYRO_FACTOR)
          (elapsed (time2 g) comptime (packets consumed)).
Proof.
  induction reads as [|r reads IH]; intros g comptime g' rest; [discriminate|].
  cbn [calibration_loop]. destruct r as [data|].
  - destruct (decode data) as [[f1 f2]|] eqn:Hd.
    + rewrite (calibration_body_decoded g comptime data f1 f2 Hd). cbv zeta.
      set (seconds := (comptime + delta_first (timestamp f1) (time2 g)
                       + delta_second (timestamp f1) (timestamp f2))%float).
      set (sum := np_add (np_add (gcomp g) (IntArr (gyro f1))) (IntArr (gyro f2))).
      destruct (float_gt seconds 5) eqn:Hgt.
      * intros [= <- <-]. exists [Some data].
        cbn [packets]. rewrite Hd. cbn [time2 gcomp].
        repeat split; try reflexivity; try discriminate.
        -- constructor; [unfold decodable; congruence|constructor].
        -- exact Hgt.
        -- simpl. intros k Hk. lia.
      * intros Hl. apply IH in Hl as (consumed & -> & Hne & Hall & Ht & Hgt' & Hpre & Hg).
        cbn [time2 gcomp] in *. exists (Some data :: consumed).
        cbn [packets]. rewrite Hd.
        split; [reflexivity|]. split; [discriminate|].
        split; [constructor; [unfold decodable; congruence|exact Hall]|].
        split; [unfold retained in *; cbn [map]; rewrite last_cons; exact Ht|].
        split; [exact Hgt'|]. split; [|exact Hg].
        intros k Hk. destruct k as [|k]; [lia|].
        cbn [firstn elapsed]. fold seconds. destruct k as [|k].
        -- exact Hgt.
        -- apply Hpre. simpl in Hk. lia.
    + rewrite (calibration_body_undecoded g comptime data Hd). discriminate.
  - cbn [calibration_body]. intros Hl.
    apply IH in Hl as (consumed & -> & Hne & Hall & Ht & Hgt' & Hpre & Hg).
    exists (None :: consumed). cbn [packets].
    repeat split; auto. constructor; [exact I|exact Hall].
Qed.

(** The loop is left as soon as the packets read have carried the
    accumulated time above 5 seconds. *)
Lemma calibration_loop_completes reads :
  forall g comptime,
    Forall decodable reads ->
    (exists k, (1 <= k <= length (packets reads))%nat /\
               float_gt (elapsed (time2 g) comptime (firstn k (packets reads))) 5
               = true) ->
    exists g' rest, calibration_loop g comptime reads = Calibrated g' rest.
Proof.
  induction reads as [|r reads IH]; intros g comptime Hall (k & Hk & Hgt).
  - simpl in Hk. lia.
  - inversion Hall as [|? ? Hr Hrest]; subst. cbn [calibration_loop].
    destruct r as [data|].
    + destruct (decode data) as [[f1 f2]|] eqn:Hd;
        [|unfold decodable in Hr; congruence].
      rewrite (calibration_body_decoded g comptime data f1 f2 Hd). cbv zeta.
      cbn [packets] in Hk, Hgt. rewrite Hd in Hk, Hgt.
      set (seconds := (comptime + delta_first (timestamp f1) (time2 g)
                       + delta_second (timestamp f1) (timestamp f2))%float) in *.
      destruct (float_gt seconds 5) eqn:Hnow; [eauto|].
      apply IH; [exact Hrest|]. cbn [time2].
      destruct k as [|[|k]]; [lia| |].
      * cbn [firstn elapsed] in Hgt. fold seconds in Hgt. congruence.
      * exists (S k). cbn [firstn elapsed length] in Hgt, Hk.
        split; [lia|exact Hgt].
    + cbn [calibration_body]. apply IH; [exact Hrest|].
      exists k. cbn [packets] in Hk, Hgt. auto.
Qed.

(** The retained timestamp is that of the second sub-frame of the last
    packet. *)
Lemma retained_last time2 pkts :
  pkts <> [] ->
  exists pkts' f1 f2, pkts = pkts' ++ [(f1, f2)] /\ retained time2 pkts = timestamp f2.
Proof.
  intros Hne. destruct (exists_last Hne) as (pkts' & [f1 f2] & ->).
  exists pkts', f1, f2. split; [reflexivity|].
  unfold retained. rewrite map_app. cbn [map]. apply last_last.
Qed.

(** The summed angular rate stays an int64 array. *)
Lemma rate_sum_int pkts :
  forall v, exists s, rate_sum (IntArr v) pkts = IntArr s.
Proof.
  induction pkts as [|[f1 f2] pkts IH]; intros v; [now exists v|].
  unfold rate_sum. cbn [fold_left fst snd].
  destruct v as [[a b] c], (gyro f1) as [[a1 b1] c1], (gyro f2) as [[a2 b2] c2].
  cbn [np_add np_binop vzip]. apply IH.
Qed.

(** The packets of a sequence of reads carry signed 16-bit counts. *)
Lemma packets_int16 reads :
  Forall (fun p => int16_vec (gyro (fst p)) /\ int16_vec (gyro (snd p)))
    (packets reads).
Proof.
  induction reads as [|[data|] reads IH]; cbn [packets]; auto.
  destruct (decode data) as [[f1 f2]|] eqn:Hd; [|exact IH].
  constructor; [|exact IH]. apply decode_range in Hd. cbn [fst snd]. tauto.
Qed.

(** Below 2^47 packets the int64 sum has not wrapped: it is the exact
    sum of the counts. *)
Lemma rate_sum_exact pkts :
  forall v n,
    (let '(a, b, c) := v in
     Z.abs a <= n * 2 ^ 16 /\ Z.abs b <= n * 2 ^ 16 /\ Z.abs c <= n * 2 ^ 16) ->
    0 <= n -> n + Z.of_nat (length pkts) <= 2 ^ 47 ->
    Forall (fun p => int16_vec (gyro (fst p)) /\ int16_vec (gyro (snd p))) pkts ->
    rate_sum (IntArr v) pkts = IntArr (gyro_total v pkts).
Proof.
  induction pkts as [|[f1 f2] pkts IH]; intros v n Hv Hn Hlen Hall; [reflexivity|].
  inversion Hall as [|? ? [H1 H2] Hrest]; subst. cbn [fst snd] in H1, H2.
  unfold rate_sum, gyro_total. cbn [fold_left fst snd].
  destruct v as [[a b] c], (gyro f1) as [[a1 b1] c1], (gyro f2) as [[a2 b2] c2].
  unfold int16_vec, int16 in H1, H2. cbn [length] in Hlen.
  rewrite Nat2Z.inj_succ in Hlen. cbv beta iota in Hv.
  cbn [np_add np_binop vzip].
  rewrite (wrap_int64_small (a + a1)), (wrap_int64_small (b + b1)),
    (wrap_int64_small (c + c1)) by lia.
  rewrite !wrap_int64_small by lia.
  apply (IH _ (n + 1)); try lia; try assumption.
Qed.

(** The bias of line 166, written out: each summed count as a float,
    times the scale (negated on the third axis), divided by the seconds. *)
Lemma bias_value a b c seconds :
  np_div_scalar (np_mul (IntArr (a, b, c)) GYRO_FACTOR) seconds
  = FloatArr ((float_of_Z a * gyro_scale) / seconds,
              (float_of_Z b * gyro_scale) / seconds,
              (float_of_Z c * (- gyro_scale)) / seconds)%float.
Proof. rewrite GYRO_FACTOR_value. reflexivity. Qed.

(** The test of line 165 on a decoded report: the loop is left exactly
    when the time accumulated after both sub-frames is above 5. *)
Lemma calibration_body_break g comptime data f1 f2 :
  decode data = Some (f1, f2) ->
  let seconds :=
    (comptime + delta_first (timestamp f1) (time2 g)
              + delta_second (timestamp f1) (timestamp f2))%float in
  ((5 <? seconds)%float = true ->
   exists g', calibration_body g comptime (Some data) = CalBreak g') /\
  ((5 <? seconds)%float = false ->
   exists g', calibration_body g comptime (Some data) = CalNext g' seconds).
Proof.
  intros Hd seconds.
  rewrite (calibration_body_decoded g comptime data f1 f2 Hd). cbv zeta.
  fold seconds. unfold float_gt.
  split; intros ->; eexists; reflexivity.
Qed.

(** C6.  With a device and gyro compensation enabled, the calibration loop
    sums the angular rates and the reconciled deltas of the packets it
    reads until the accumulated time strictly exceeds 5 seconds (the test
    [5 < seconds] is made once per packet, after both of its sub-frames),
    and it is left once it has.  [gcomp] is then, on each axis, the summed
    count (the exact sum of the counts, the int64 sum not wrapping below
    2^47 packets) as a float, times the scale (1998 / 2^15) * (pi / 180),
    negated on the third axis, divided by the accumulated seconds; the
    fusion loop that follows never assigns it again.  With compensation
    disabled [gcomp] is the zero vector, no read is consumed, and the
    counts of every decoded sample reach the scaling unmodified. *)
Theorem calibration_bias {ahrs : Type} `{Filter ahrs} opts reads :
  (comp opts = true ->
   (Forall decodable reads ->
    (exists k, (1 <= k <= length (packets reads))%nat /\
               (5 <? elapsed 0 0 (firstn k (packets reads)))%float = true) ->
    exists g rest, calibration true opts reads = Calibrated g rest) /\
   (forall g rest,
      calibration true opts reads = Calibrated g rest ->
      exists consumed s0 s1 s2,
        reads = consumed ++ rest /\
        rate_sum (IntArr (0, 0, 0)) (packets consumed) = IntArr (s0, s1, s2) /\
        (Z.of_nat (length (packets consumed)) <= 2 ^ 47 ->
         (s0, s1, s2) = gyro_total (0, 0, 0) (packets consumed)) /\
        (5 <? elapsed 0 0 (packets consumed))%float = true /\
        (forall k, (k < length (packets consumed))%nat ->
           (5 <? elapsed 0 0 (firstn k (packets consumed)))%float = false) /\
        gcomp g =
          FloatArr
            ((float_of_Z s0 * gyro_scale) / elapsed 0 0 (packets consumed),
             (float_of_Z s1 * gyro_scale) / elapsed 0 0 (packets consumed),
             (float_of_Z s2 * (- gyro_scale)) / elapsed 0 0 (packets consumed))%float /\
        gyro_scale = ((1998 / 32768) * (np_pi / 180))%float /\
        (forall (q : ahrs) more sent g' q',
           fusion_loop opts g q more = (sent, Some (g', q')) ->
           gcomp g' = gcomp g))) /\
  (comp opts = false ->
   forall Sensor,
     calibration Sensor opts reads = Calibrated globals_init reads /\
     gcomp globals_init = IntArr (0, 0, 0) /\
     (forall data f1 f2,
        decode data = Some (f1, f2) ->
        np_sub (IntArr (gyro f1)) (gcomp globals_init) = IntArr (gyro f1) /\
        np_sub (IntArr (gyro f2)) (gcomp globals_init) = IntArr (gyro f2))).
Proof.
  split.
  - intros Hc. split.
    { intros Hall Hk. unfold calibration. rewrite Hc. cbn [andb].
      apply calibration_loop_completes; [exact Hall|].
      destruct Hk as (k & Hk & Hgt). exists k. split; [exact Hk|exact Hgt]. }
    intros g rest Hcal. unfold calibration in Hcal. rewrite Hc in Hcal.
    cbn [andb] in Hcal.
    apply calibration_loop_break in Hcal
      as (consumed & -> & Hne & _ & _ & Hgt & Hpre & Hg).
    cbn [time2 gcomp globals_init] in *. unfold float_gt in Hgt, Hpre.
    destruct (rate_sum_int (packets consumed) (0, 0, 0)) as ([[s0 s1] s2] & Hsum).
    exists consumed, s0, s1, s2. rewrite Hsum, bias_value in Hg.
    split; [reflexivity|]. split; [exact Hsum|].
    split.
    { intros Hlen.
      assert (Hex : rate_sum (IntArr (0, 0, 0)) (packets consumed)
                    = IntArr (gyro_total (0, 0, 0) (packets consumed))).
      { apply (rate_sum_exact (packets consumed) (0, 0, 0) 0).
        - cbv beta iota. lia.
        - lia.
        - lia.
        - apply packets_int16. }
      rewrite Hex in Hsum. now injection Hsum. }
    split; [exact Hgt|].
    split; [|split; [exact Hg|split]].
    + intros [|k] Hk; [vm_compute; reflexivity|apply Hpre; lia].
    + vm_compute. reflexivity.
    + intros q more sent g' q'. apply fusion_loop_gcomp.
  - intros Hc Sensor. unfold calibration. rewrite Hc, andb_false_r.
    split; [reflexivity|]. split; [reflexivity|].
    intros data f1 f2 Hd. apply decode_range in Hd as (_ & _ & H1 & H2).
    cbn [gcomp globals_init]. split; now apply int16_vec_sub_zero.
Qed.

Lemma calibration_bias_witness :
  let on := {| angle := false; sim := false; comp := true |} in
  let off := {| angle := false; sim := false; comp := false |} in
  let f1 := {| timestamp := 100; gyro := (3, -4, 5); acc := (0, 0, 256) |} in
  let f2 := {| timestamp := 6000000; gyro := (1, 2, 3); acc := (0, 0, 256) |} in
  let next := Some (report (still 6000015) (still 6000515)) in
  let reads := [None; Some (report f1 f2); next] in
  let seconds := 0x1.80068db8bac71p+2%float in
  (calibration true on reads
   = Calibrated {| time2 := 6000000;
                   gcomp := FloatArr (0x1.73f0950abefd2p-11,
                                      -0x1.73f0950abefd2p-12,
                                      -0x1.73f0950abefd2p-10)%float |}
       [next] /\
   elapsed 0 0 [(f1, f2)] = seconds /\
   (exists g rest, calibration true on reads = Calibrated g rest) /\
   exists consumed s0 s1 s2,
     reads = consumed ++ [next] /\
     rate_sum (IntArr (0, 0, 0)) (packets consumed) = IntArr (s0, s1, s2) /\
     (Z.of_nat (length (packets consumed)) <= 2 ^ 47 ->
      (s0, s1, s2) = gyro_total (0, 0, 0) (packets consumed)) /\
     (5 <? elapsed 0 0 (packets consumed))%float = true /\
     (forall k, (k < length (packets consumed))%nat ->
        (5 <? elapsed 0 0 (firstn k (packets consumed)))%float = false) /\
     FloatArr (0x1.73f0950abefd2p-11, -0x1.73f0950abefd2p-12,
               -0x1.73f0950abefd2p-10)%float =
       FloatArr
         ((float_of_Z s0 * gyro_scale) / elapsed 0 0 (packets consumed),
          (float_of_Z s1 * gyro_scale) / elapsed 0 0 (packets consumed),
          (float_of_Z s2 * (- gyro_scale)) / elapsed 0 0 (packets consumed))%float /\
     gyro_scale = ((1998 / 32768) * (np_pi / 180))%float /\
     (forall (q : list call) more sent g' q',
        fusion_loop on
          {| time2 := 6000000;
             gcomp := FloatArr (0x1.73f0950abefd2p-11, -0x1.73f0950abefd2p-12,
                                -0x1.73f0950abefd2p-10)%float |} q more
        = (sent, Some (g', q')) ->
        gcomp g' =
          FloatArr (0x1.73f0950abefd2p-11, -0x1.73f0950abefd2p-12,
                    -0x1.73f0950abefd2p-10)%float)) /\
  (calibration_loop globals_init 0
     [Some (report (still 100) (still 4999600))]
   = Calibrating {| time2 := 4999600; gcomp := IntArr (0, 0, 0) |} 5 /\
   calibration_loop globals_init 0
     [Some (report (still 100) (still 4999601))]
   = Calibrated {| time2 := 4999601; gcomp := FloatArr (0, 0, -0)%float |} []) /\
  (calibration true off reads = Calibrated globals_init reads /\
   gcomp globals_init = IntArr (0, 0, 0) /\
   (forall data g1 g2,
      decode data = Some (g1, g2) ->
      np_sub (IntArr (gyro g1)) (gcomp globals_init) = IntArr (gyro g1) /\
      np_sub (IntArr (gyro g2)) (gcomp globals_init) = IntArr (gyro g2))).
Proof.
  intros on off f1 f2 next reads seconds.
  assert (Hcal : calibration true on reads
                 = Calibrated {| time2 := 6000000;
                                 gcomp := FloatArr (0x1.73f0950abefd2p-11,
                                                    -0x1.73f0950abefd2p-12,
                                                    -0x1.73f0950abefd2p-10)%float |}
                     [next])
    by (vm_compute; reflexivity).
  split; [|split].
  - split; [exact Hcal|]. split; [vm_compute; reflexivity|].
    split.
    + apply (proj1 (proj1 (calibration_bias (ahrs := list call) on reads) eq_refl)).
      * unfold reads, decodable. repeat constructor; vm_compute; discriminate.
      * exists 1%nat. split; vm_compute; [split; repeat constructor|reflexivity].
    + exact (proj2 (proj1 (calibration_bias (ahrs := list call) on reads) eq_refl)
               _ _ Hcal).
  - split; vm_compute; reflexivity.
  - apply (proj2 (calibration_bias (ahrs := list call) off reads) eq_refl true).
Defined.

(* ================================================================== *)
(** * The timestamp retained across the two loops *)
(* ================================================================== *)

Lemma delta_first_mod t_new t_prev :
  raw24 t_prev -> raw24 t_new -> t_prev <> 0 ->
  delta_first t_new t_prev = usec ((t_new - t_prev) mod 2 ^ 24).
Proof.
  unfold raw24. intros Hp Hn H0. rewrite delta_first_cases.
  destruct (Z.ltb_spec t_new t_prev).
  - destruct (Z.eqb_spec t_prev (2 ^ 24)); [lia|].
    f_equal. apply Z.mod_unique with (q := -1); lia.
  - destruct (Z.eqb_spec t_prev 0); [lia|].
    f_equal. symmetry. apply Z.mod_small. lia.
Qed.

(** C8, as the code has it.  When the calibration loop is left, [time2]
    holds the timestamp of the second sub-frame of the last calibration
    packet, and the fusion loop starts from it: nothing resets it.  The
    first delta after calibration is reconciled against that timestamp and
    is the elapsed time since the last calibration sample; it is the
    nominal 500 microseconds only if that timestamp is 0. *)
Theorem calibration_timestamp_carried
  opts reads g data tail f1 f2 (log : list call) :
  comp opts = true -> sim opts = false ->
  calibration true opts reads = Calibrated g (Some data :: tail) ->
  decode data = Some (f1, f2) ->
  (exists consumed pkts f01 f02,
     reads = consumed ++ Some data :: tail /\
     packets consumed = pkts ++ [(f01, f02)] /\
     time2 g = timestamp f02) /\
  main (ahrs := list call) opts true reads =
    match fusion_loop opts g ahrs_init (Some data :: tail) with
    | (sent, Some (g', q)) => RunFusing sent g' q
    | (sent, None) => RunRaised sent
    end /\
  (exists g' out c2 r1 a1,
     fusion_body opts g log (Some data) =
       FusSent g' (c2 :: (r1, a1, Some (delta_first (timestamp f1) (time2 g)))
                      :: log) out) /\
  (time2 g <> 0 -> raw24 (time2 g) -> raw24 (timestamp f1) ->
   delta_first (timestamp f1) (time2 g)
   = usec ((timestamp f1 - time2 g) mod 2 ^ 24)).
Proof.
  intros Hc Hs Hcal Hd. split; [|split; [|split]].
  - unfold calibration in Hcal. rewrite Hc in Hcal. cbn [andb] in Hcal.
    apply calibration_loop_break in Hcal
      as (consumed & -> & Hne & _ & Ht & _).
    destruct (retained_last (time2 globals_init) _ Hne)
      as (pkts & f01 & f02 & Hp & Hr).
    exists consumed, pkts, f01, f02. rewrite Ht, Hr. auto.
  - unfold main. rewrite Hs. cbn [negb andb orb]. rewrite Hcal. reflexivity.
  - destruct (fusion_body_recorded opts g log data f1 f2 Hs Hd) as (out & ->).
    repeat eexists.
  - intros H0 H2 H1. now apply delta_first_mod.
Qed.

Lemma calibration_timestamp_carried_witness :
  let opts := {| angle := false; sim := false; comp := true |} in
  let data := report (still 6000015) (still 6000515) in
  let reads := [Some (report (still 100) (still 6000000)); Some data] in
  exists g,
    calibration true opts reads = Calibrated g [Some data] /\
    time2 g = 6000000 /\
    ((exists consumed pkts f01 f02,
        reads = consumed ++ [Some data] /\
        packets consumed = pkts ++ [(f01, f02)] /\
        time2 g = timestamp f02) /\
     main (ahrs := list call) opts true reads =
       match fusion_loop opts g ahrs_init [Some data] with
       | (sent, Some (g', q)) => RunFusing sent g' q
       | (sent, None) => RunRaised sent
       end /\
     (exists g' out c2 r1 a1,
        fusion_body opts g ([] : list call) (Some data) =
          FusSent g' [c2; (r1, a1, Some (delta_first 6000015 (time2 g)))] out) /\
     (time2 g <> 0 -> raw24 (time2 g) -> raw24 6000015 ->
      delta_first 6000015 (time2 g) = usec ((6000015 - time2 g) mod 2 ^ 24))).
Proof.
  intros opts data reads. eexists. split; [vm_compute; reflexivity|].
  split; [reflexivity|].
  apply (calibration_timestamp_carried opts reads _ data []
           (still 6000015) (still 6000515) []).
  - reflexivity.
  - reflexivity.
  - vm_compute. reflexivity.
  - vm_compute. reflexivity.
Defined.

(** C8 as stated fails: after a calibration pass that ends on the
    timestamp 6,000,000, the first fusion delta for the timestamp
    6,000,015 is 15 microseconds, not the 500-microsecond default. *)
Lemma time2_reset_counterexample :
  let opts := {| angle := false; sim := false; comp := true |} in
  let data := report (still 6000015) (still 6000515) in
  let reads := [Some (report (still 100) (still 6000000)); Some data] in
  (exists g, calibration true opts reads = Calibrated g [Some data] /\
             time2 g = 6000000) /\
  (exists out g' c2 r1 a1,
     main (ahrs := list call) opts true reads
     = RunFusing [out] g' [c2; (r1, a1, Some (usec 15))]) /\
  usec 15 <> nominal_delta.
Proof.
  intros opts data reads. split; [|split].
  - eexists. split; vm_compute; reflexivity.
  - vm_compute. repeat eexists.
  - float_neq.
Qed.

(* ================================================================== *)
(** * The frames sent to VRidge *)
(* ================================================================== *)

Lemma Float32l_build_length x b : Float32l_build x = Some b -> length b = 4%nat.
Proof.
  unfold Float32l_build. destruct (binary32_of_float x); [|discriminate].
  intros [= <-]. reflexivity.
Qed.

Lemma build_all_Float32l data :
  forall payload,
    build_all Float32l_build data = Some payload ->
    length payload = (4 * length data)%nat /\
    payload = flat_map Float32l_bytes data.
Proof.
  induction data as [|x data IH]; intros payload; cbn [build_all].
  - intros [= <-]. split; reflexivity.
  - destruct (Float32l_build x) as [b|] eqn:Hx; [|discriminate].
    destruct (build_all Float32l_build data) as [bs|]; [|discriminate].
    intros [= <-]. destruct (IH bs eq_refl) as [Hl Hp].
    apply Float32l_build_length in Hx as Hb.
    split.
    + rewrite length_app, Hl, Hb. cbn [length]. lia.
    + cbn [flat_map]. unfold Float32l_bytes at 1. rewrite Hx. now rewrite <- Hp.
Qed.

Lemma build_all_app {A} (sub : A -> option (list byte)) xs ys a b :
  build_all sub xs = Some a -> build_all sub ys = Some b ->
  build_all sub (xs ++ ys) = Some (a ++ b).
Proof.
  revert a. induction xs as [|x xs IH]; intros a; cbn [build_all app].
  - intros [= <-] Hy. exact Hy.
  - destruct (sub x) as [bx|]; [|discriminate].
    destruct (build_all sub xs) as [bxs|]; [|discriminate].
    intros [= <-] Hy. rewrite (IH bxs eq_refl Hy). now rewrite app_assoc.
Qed.

(** A frame: the header, the payload, zero bytes up to 64 after it. *)
Lemma frame_build task tb count data payload :
  Int32ul_build task = Some tb ->
  length data = count -> (4 * count <= 64)%nat ->
  build_all Float32l_build data = Some payload ->
  Struct_build
    (header task ++ [Padded_build 64 (Array_build count Float32l_build data)])
  = Some ([x02; x00; x00; x00] ++ tb ++ [x18; x00; x00; x00]
          ++ payload ++ repeat x00 (64 - 4 * count)).
Proof.
  intros Ht Hc Hle Hb.
  destruct (build_all_Float32l data payload Hb) as [Hl _].
  unfold Array_build, header. rewrite Hc, Nat.eqb_refl, Hb, Ht.
  unfold Padded_build. rewrite Hl, Hc.
  destruct (Nat.leb_spec (4 * count) 64) as [_|Hgt]; [|lia].
  change (Int32ul_build 2) with (Some [x02; x00; x00; x00]).
  change (Int32ul_build 24) with (Some [x18; x00; x00; x00]).
  cbn [app Struct_build]. rewrite app_nil_r. reflexivity.
Qed.

Lemma position_bytes : build_all Float32l_build position = Some (repeat x00 12).
Proof. vm_compute. reflexivity. Qed.

(** C2, as the code has it.  In each of the three modes the frame built
    is 76 bytes long: twelve header bytes (version 2, type 3, 4 or 5,
    declared length 24, little-endian 32-bit each) and a data area of 64
    bytes, which holds the payload, the little-endian 32-bit floats of the
    six, seven or three values, followed by zero bytes only.  The frame
    the loop sends carries the orientation as (pitch, yaw, roll) or as
    (y, z, x, w) of the filter's (w, x, y, z), followed by the position
    (0, 0, 0): every byte of its data area after the orientation floats,
    so every byte beyond the declared 24, is zero. *)
Theorem frame_layout {ahrs : Type} `{Filter ahrs} (q : ahrs)
  (yaw pitch roll qw qx qy qz px py pz : float) (ba bq bp : list byte) :
  yaw_pitch_roll q = (yaw, pitch, roll) ->
  elements q = (qw, qx, qy, qz) ->
  build_all Float32l_build [pitch; yaw; roll] = Some ba ->
  build_all Float32l_build [qy; qz; qx; qw] = Some bq ->
  build_all Float32l_build [px; py; pz] = Some bp ->
  let angles := header_bytes x03 ++ (ba ++ bp) ++ repeat x00 40 in
  let quaternion := header_bytes x04 ++ (bq ++ bp) ++ repeat x00 36 in
  let just := header_bytes x05 ++ bp ++ repeat x00 52 in
  (anglesposition_build ([pitch; yaw; roll] ++ [px; py; pz]) = Some angles /\
   quaternionposition_build ([qy; qz; qx; qw] ++ [px; py; pz]) = Some quaternion /\
   justposition_build [px; py; pz] = Some just) /\
  (length angles = 76 /\ length quaternion = 76 /\ length just = 76)%nat /\
  (ba = flat_map Float32l_bytes [pitch; yaw; roll] /\ length ba = 12%nat /\
   bq = flat_map Float32l_bytes [qy; qz; qx; qw] /\ length bq = 16%nat /\
   bp = flat_map Float32l_bytes [px; py; pz] /\ length bp = 12%nat) /\
  output_build {| angle := true; sim := false; comp := false |} q
    = Some (header_bytes x03 ++ ba ++ repeat x00 52) /\
  output_build {| angle := false; sim := false; comp := false |} q
    = Some (header_bytes x04 ++ bq ++ repeat x00 48).
Proof.
  intros Hypr Hel Ha Hq Hp angles quaternion just.
  destruct (build_all_Float32l _ _ Ha) as [Hla Hba].
  destruct (build_all_Float32l _ _ Hq) as [Hlq Hbq].
  destruct (build_all_Float32l _ _ Hp) as [Hlp Hbp].
  cbn [length] in Hla, Hlq, Hlp.
  split; [|split; [|split; [|split]]].
  - split; [|split].
    + apply (frame_build 3 [x03; x00; x00; x00] 6); try reflexivity; try lia.
      now apply build_all_app.
    + apply (frame_build 4 [x04; x00; x00; x00] 7); try reflexivity; try lia.
      now apply build_all_app.
    + apply (frame_build 5 [x05; x00; x00; x00] 3); try reflexivity; try lia.
      exact Hp.
  - subst angles quaternion just. unfold header_bytes.
    rewrite !length_app, !repeat_length, Hla, Hlq, Hlp. cbn [length].
    repeat split; reflexivity.
  - repeat split; assumption.
  - unfold output_build. cbn [angle]. rewrite Hypr.
    unfold anglesposition_build.
    rewrite (frame_build 3 [x03; x00; x00; x00] 6 _ (ba ++ repeat x00 12));
      try reflexivity; try lia.
    + unfold header_bytes. rewrite <- !app_assoc. repeat f_equal.
    + apply build_all_app; [exact Ha|exact position_bytes].
  - unfold output_build. cbn [angle]. rewrite Hel.
    unfold quaternionposition_build.
    rewrite (frame_build 4 [x04; x00; x00; x00] 7 _ (bq ++ repeat x00 12));
      try reflexivity; try lia.
    + unfold header_bytes. rewrite <- !app_assoc. repeat f_equal.
    + apply build_all_app; [exact Hq|exact position_bytes].
Qed.

Lemma frame_layout_witness :
  let bq := repeat x00 12 ++ [x00; x00; x80; x3f] in
  let bp := [x00; x00; x00; x3f] ++ [x00; x00; x00; xc0] ++ [x00; x00; x80; x3f] in
  (anglesposition_build ([0; 0; 0] ++ [0.5; -2; 1])%float
     = Some (header_bytes x03 ++ (repeat x00 12 ++ bp) ++ repeat x00 40) /\
   quaternionposition_build ([0; 0; 0; 1] ++ [0.5; -2; 1])%float
     = Some (header_bytes x04 ++ (bq ++ bp) ++ repeat x00 36) /\
   justposition_build [0.5; -2; 1]%float
     = Some (header_bytes x05 ++ bp ++ repeat x00 52)) /\
  length (header_bytes x04 ++ (bq ++ bp) ++ repeat x00 36) = 76%nat /\
  output_build {| angle := true; sim := false; comp := false |} ([] : list call)
    = Some (header_bytes x03 ++ repeat x00 12 ++ repeat x00 52) /\
  output_build {| angle := false; sim := false; comp := false |} ([] : list call)
    = Some (header_bytes x04 ++ bq ++ repeat x00 48).
Proof.
  intros bq bp.
  destruct (frame_layout ([] : list call) 0 0 0 1 0 0 0 0.5 (-2) 1
              (repeat x00 12) bq bp)
    as (Hb & (_ & Hl & _) & _ & Ha & Hq);
    try (vm_compute; reflexivity).
  repeat split; solve [apply Hb | exact Hl | exact Ha | exact Hq].
Defined.

(** C2 as stated fails: the frame is 76 bytes long, not 64, the 64 bytes
    being the data area after the twelve header bytes; and for a position
    with a non-zero third coordinate the quaternion frame has a non-zero
    byte beyond the declared 24 payload bytes (offset 27 of the data area,
    the last byte of the seventh float). *)
Lemma frame_size_counterexample :
  (exists out,
     quaternionposition_build ([0; 0; 0; 1] ++ position)%float = Some out /\
     length out = 76%nat /\ length out <> 64%nat) /\
  (exists out,
     output_build {| angle := true; sim := false; comp := false |}
       ([] : list call) = Some out /\
     length out = 76%nat /\ length out <> 64%nat) /\
  (exists out,
     quaternionposition_build [0; 0; 0; 1; 0; 0; 1]%float = Some out /\
     nth (12 + 27) out x00 = x3f).
Proof.
  split; [|split]; eexists; (split; [vm_compute; reflexivity|]).
  - split; [reflexivity|discriminate].
  - split; [reflexivity|discriminate].
  - reflexivity.
Qed.

(* ================================================================== *)
(** * More on the packet decoder *)
(* ================================================================== *)

Lemma byte_of_to_Z z : byte_to_Z (byte_of_Z z) = z mod 256.
Proof.
  unfold byte_to_Z, byte_of_Z.
  assert (Hr : 0 <= z mod 256 < 256) by (apply Z.mod_pos_bound; lia).
  destruct (Byte.of_N (Z.to_N (z mod 256))) as [b|] eqn:Hb.
  - apply Byte.to_of_N in Hb. rewrite Hb. lia.
  - apply Byte.of_N_None_iff in Hb. lia.
Qed.

Lemma le_encode_length n : forall z, length (le_encode n z) = n.
Proof. induction n as [|n IH]; intros z; simpl; [reflexivity|now rewrite IH]. Qed.

(** Decoding the [n] little-endian bytes of [z] gives [z] modulo
    [256^n]. *)
Lemma le_decode_encode n :
  forall z, le_decode (le_encode n z) = z mod 256 ^ Z.of_nat n.
Proof.
  induction n as [|n IH]; intros z.
  - simpl. now rewrite Z.mod_1_r.
  - cbn [le_encode le_decode]. rewrite byte_of_to_Z, IH.
    rewrite Nat2Z.inj_succ, Z.pow_succ_r by lia.
    rewrite Z.rem_mul_r by lia. reflexivity.
Qed.

Lemma stream_read_app bs rest :
  stream_read (length bs) (bs ++ rest) = Some (bs, rest).
Proof.
  unfold stream_read. rewrite length_app.
  destruct (Nat.leb_spec (length bs) (length bs + length rest)); [|lia].
  rewrite firstn_app, Nat.sub_diag, firstn_all, skipn_app, Nat.sub_diag, skipn_all.
  cbn [firstn skipn app]. now rewrite app_nil_r.
Qed.

Lemma Int32ul_encode t rest :
  0 <= t < 2 ^ 32 -> Int32ul (le_encode 4 t ++ rest) = Some (t, rest).
Proof.
  intros Ht. unfold Int32ul, bind.
  rewrite <- (le_encode_length 4 t) at 1. rewrite stream_read_app.
  unfold ret. rewrite le_decode_encode.
  change (256 ^ Z.of_nat 4) with (2 ^ 32). now rewrite Z.mod_small.
Qed.

Lemma Int16sl_encode v rest :
  int16 v -> Int16sl (le_encode 2 v ++ rest) = Some (v, rest).
Proof.
  unfold int16. intros Hv. unfold Int16sl, bind.
  rewrite <- (le_encode_length 2 v) at 1. rewrite stream_read_app.
  unfold ret. rewrite le_decode_encode.
  change (256 ^ Z.of_nat 2) with (2 ^ 16).
  change (Z.pow_pos 2 15) with (2 ^ 15). change (Z.pow_pos 2 16) with (2 ^ 16).
  do 2 f_equal.
  destruct (Z.le_gt_cases 0 v).
  - rewrite Z.mod_small by lia. destruct (Z.ltb_spec v (2 ^ 15)); lia.
  - replace (v mod 2 ^ 16) with (v + 2 ^ 16)
      by (apply Z.mod_unique with (q := -1); lia).
    destruct (Z.ltb_spec (v + 2 ^ 16) (2 ^ 15)); lia.
Qed.

Lemma Array3_Int16sl_encode a b c rest :
  int16_vec (a, b, c) ->
  Array3 Int16sl (le_encode 2 a ++ le_encode 2 b ++ le_encode 2 c ++ rest)
  = Some ((a, b, c), rest).
Proof.
  intros (Ha & Hb & Hc). unfold Array3, bind.
  rewrite (Int16sl_encode a) by assumption.
  rewrite (Int16sl_encode b) by assumption.
  rewrite (Int16sl_encode c) by assumption.
  reflexivity.
Qed.

Lemma frame_bytes_length f : length (frame_bytes f) = 16%nat.
Proof.
  unfold frame_bytes. destruct (gyro f) as [[g0 g1] g2], (acc f) as [[a0 a1] a2].
  rewrite !length_app, !le_encode_length. reflexivity.
Qed.

(** The parser inverts the little-endian, two's complement layout of a
    sub-frame, whatever follows it. *)
Lemma sensor_frame_bytes f rest :
  well_formed f -> sensor (frame_bytes f ++ rest) = Some (f, rest).
Proof.
  intros (Ht & Hg & Ha). unfold frame_bytes, sensor.
  destruct f as [t [[g0 g1] g2] [[a0 a1] a2]]. cbn [timestamp gyro acc] in *.
  rewrite <- !app_assoc. unfold bind at 1.
  rewrite (Int32ul_encode t) by assumption. unfold bind at 1.
  rewrite (Array3_Int16sl_encode g0 g1 g2) by assumption. unfold bind at 1.
  rewrite (Array3_Int16sl_encode a0 a1 a2) by assumption.
  reflexivity.
Qed.

Lemma firstn_exact {A} n (a b : list A) : length a = n -> firstn n (a ++ b) = a.
Proof.
  intros <-. rewrite firstn_app, Nat.sub_diag, firstn_all. cbn [firstn].
  apply app_nil_r.
Qed.

Lemma skipn_exact {A} n (a b : list A) : length a = n -> skipn n (a ++ b) = b.
Proof.
  intros <-. rewrite skipn_app, Nat.sub_diag, skipn_all. reflexivity.
Qed.

(** The two slices the loops take lie inside bytes 16 to 47. *)
Lemma slice_window (pre mid post : list byte) :
  length pre = 16%nat -> length mid = 32%nat ->
  slice (pre ++ mid ++ post) 16 32 = firstn 16 mid /\
  slice (pre ++ mid ++ post) 32 48 = firstn 16 (skipn 16 mid).
Proof.
  intros Hp Hm. unfold slice.
  change (32 - 16)%nat with 16%nat. change (48 - 32)%nat with 16%nat.
  assert (Hs : skipn 16 (pre ++ mid ++ post) = mid ++ post).
  { rewrite skipn_app, Hp, skipn_all2 by lia. reflexivity. }
  split.
  - rewrite Hs, firstn_app, Hm. cbn [Nat.sub firstn]. now rewrite app_nil_r.
  - change 32%nat with (16 + 16)%nat at 1. rewrite <- skipn_skipn, Hs.
    rewrite skipn_app, Hm. change (16 - 32)%nat with 0%nat. rewrite skipn_O.
    rewrite firstn_app, length_skipn, Hm. change (16 - (32 - 16))%nat with 0%nat.
    rewrite firstn_O. now rewrite app_nil_r.
Qed.

(** X1.  A block decodes exactly when it has at least 48 bytes: a block of
    48 to 63 bytes is processed like a full report. *)
Theorem decode_needs_48_bytes (data : list byte) :
  decode data <> None <-> (48 <= length data)%nat.
Proof.
  split.
  - intros Hd. destruct (Nat.le_gt_cases 48 (length data)) as [|Hlt]; [assumption|].
    exfalso. apply Hd. now apply decode_short.
  - intros Hl.
    assert (Hp : length (firstn 16 data) = 16%nat)
      by (rewrite length_firstn; lia).
    assert (Hm : length (firstn 32 (skipn 16 data)) = 32%nat)
      by (rewrite length_firstn, length_skipn; lia).
    rewrite <- (firstn_skipn 16 data).
    rewrite <- (firstn_skipn 32 (skipn 16 data)).
    set (pre := firstn 16 data) in *.
    set (mid := firstn 32 (skipn 16 data)) in *.
    set (post := skipn 32 (skipn 16 data)).
    destruct (slice_window pre mid post Hp Hm) as [E1 E2].
    unfold decode. rewrite E1, E2.
    do 32 (destruct mid as [|? mid]; [discriminate Hm|]).
    cbn [firstn skipn]. unfold sensor_parse.
    cbv [sensor bind Int32ul Int16sl Array3 stream_read ret length Nat.leb
           firstn skipn].
    discriminate.
Qed.

(** X3.  Only bytes 16 to 47 of a block are looked at: two blocks that
    agree there decode alike, whatever their first sixteen bytes and
    whatever follows byte 47. *)
Theorem decode_window (pre mid post pre' post' : list byte) :
  length pre = 16%nat -> length pre' = 16%nat -> length mid = 32%nat ->
  decode (pre ++ mid ++ post) = decode (pre' ++ mid ++ post').
Proof.
  intros Hp Hp' Hm.
  destruct (slice_window pre mid post Hp Hm) as [E1 E2].
  destruct (slice_window pre' mid post' Hp' Hm) as [E1' E2'].
  unfold decode. now rewrite E1, E2, E1', E2'.
Qed.

Lemma decode_window_witness :
  let mid := frame_bytes (still 7) ++ frame_bytes (still 507) in
  decode (repeat xff 16 ++ mid ++ [x01])
  = decode (repeat x00 16 ++ mid ++ repeat x00 16).
Proof.
  intros mid.
  apply (decode_window (repeat xff 16) mid [x01] (repeat x00 16) (repeat x00 16));
    reflexivity.
Defined.

Lemma decode_frame_bytes f1 f2 pre post :
  well_formed f1 -> well_formed f2 -> length pre = 16%nat ->
  decode (pre ++ frame_bytes f1 ++ frame_bytes f2 ++ post) = Some (f1, f2).
Proof.
  intros H1 H2 Hp0.
  pose proof (frame_bytes_length f1) as L1.
  pose proof (frame_bytes_length f2) as L2.
  destruct (slice_window pre (frame_bytes f1 ++ frame_bytes f2) post Hp0)
    as [E1 E2]; [rewrite length_app; lia|].
  rewrite <- app_assoc in E1, E2.
  unfold decode. rewrite E1, E2.
  rewrite (firstn_exact _ (frame_bytes f1)), (skipn_exact _ (frame_bytes f1))
    by assumption.
  rewrite firstn_all2 by lia.
  unfold sensor_parse.
  rewrite <- (app_nil_r (frame_bytes f1)), <- (app_nil_r (frame_bytes f2)).
  now rewrite !sensor_frame_bytes.
Qed.

Lemma decode_report_bytes f1 f2 :
  well_formed f1 -> well_formed f2 -> decode (report f1 f2) = Some (f1, f2).
Proof.
  intros H1 H2. unfold report. now apply decode_frame_bytes.
Qed.

(** X2.  Decoding inverts the layout of a report: sixteen bytes that are
    not looked at, then the two sub-frames, each a little-endian unsigned
    32-bit timestamp followed by six little-endian two's complement 16-bit
    counts. *)
Theorem decode_report (f1 f2 : frame) (pre post : list byte) :
  well_formed f1 -> well_formed f2 -> length pre = 16%nat ->
  decode (pre ++ frame_bytes f1 ++ frame_bytes f2 ++ post) = Some (f1, f2) /\
  decode (report f1 f2) = Some (f1, f2).
Proof.
  intros H1 H2 Hp.
  split; [now apply decode_frame_bytes|now apply decode_report_bytes].
Qed.

Lemma decode_report_witness :
  let f1 := {| timestamp := 16777215; gyro := (1, -2, 300);
               acc := (-16, 32767, -32768) |} in
  let f2 := still 5 in
  decode (repeat xff 16 ++ frame_bytes f1 ++ frame_bytes f2 ++ [x01; x02])
    = Some (f1, f2) /\
  decode (report f1 f2) = Some (f1, f2).
Proof.
  intros f1 f2. apply (decode_report f1 f2 (repeat xff 16) [x01; x02]).
  - unfold well_formed, int16_vec, int16. cbn. lia.
  - unfold well_formed, int16_vec, int16. cbn. lia.
  - reflexivity.
Defined.

(** X4.  The acceleration handed to the filter: each signed 16-bit count
    divided by 16 rounding down (the 12 significant bits), the third axis
    negated; every component lies between -2048 and 2048 and the int64
    product has not wrapped. *)
Theorem acc_counts_value (bs : list byte) (f : frame) :
  sensor_parse bs = Some f ->
  let '(a0, a1, a2) := acc f in
  acc_counts f = IntArr (a0 / 16, a1 / 16, - (a2 / 16)) /\
  count12 (a0 / 16) /\ count12 (a1 / 16) /\ count12 (- (a2 / 16)).
Proof.
  intros Hp. apply sensor_parse_range in Hp as (_ & _ & Ha).
  destruct (acc f) as [[a0 a1] a2] eqn:Hacc. unfold int16_vec, int16 in Ha.
  destruct Ha as (H0 & H1 & H2).
  assert (B0 : - 2048 <= a0 / 16 <= 2047)
    by (split; [apply Z.div_le_lower_bound|apply Z.lt_succ_r, Z.div_lt_upper_bound]; lia).
  assert (B1 : - 2048 <= a1 / 16 <= 2047)
    by (split; [apply Z.div_le_lower_bound|apply Z.lt_succ_r, Z.div_lt_upper_bound]; lia).
  assert (B2 : - 2048 <= a2 / 16 <= 2047)
    by (split; [apply Z.div_le_lower_bound|apply Z.lt_succ_r, Z.div_lt_upper_bound]; lia).
  split; [|unfold count12; lia].
  unfold acc_counts, np_rshift, ACC_FACTOR. rewrite Hacc.
  cbn [vmap np_mul np_binop vzip].
  rewrite !Z.shiftr_div_pow2 by lia. change (2 ^ 4) with 16.
  rewrite !wrap_int64_small by lia.
  do 2 f_equal; [f_equal|]; lia.
Qed.

Lemma acc_counts_value_witness :
  acc_counts {| timestamp := 9; gyro := (0, 0, 0); acc := (-16, 32767, -32768) |}
    = IntArr (-16 / 16, 32767 / 16, - (-32768 / 16)) /\
  count12 (-16 / 16) /\ count12 (32767 / 16) /\ count12 (- (-32768 / 16)).
Proof.
  apply (acc_counts_value
           (frame_bytes {| timestamp := 9; gyro := (0, 0, 0);
                           acc := (-16, 32767, -32768) |})
           {| timestamp := 9; gyro := (0, 0, 0); acc := (-16, 32767, -32768) |}).
  vm_compute. reflexivity.
Defined.

(* ================================================================== *)
(** * More on the reconciler *)
(* ================================================================== *)

Lemma usec_0 : usec 0 = 0%float.
Proof. vm_compute. reflexivity. Qed.

(** X5.  Between the two sub-frames of a report there is no default: for
    raw 24-bit timestamps the second delta is the difference modulo 2^24,
    in microseconds.  Equal timestamps, or a gap of a whole turn of the
    counter, give a delta of exactly 0, and so does the first delta
    against an equal retained timestamp that is not 0. *)
Theorem delta_second_modular (t1 t2 : Z) :
  raw24 t1 -> raw24 t2 ->
  delta_second t1 t2 = usec ((t2 - t1) mod 2 ^ 24) /\
  (t1 = t2 -> delta_second t1 t2 = 0%float /\
              (t1 <> 0 -> delta_first t2 t1 = 0%float)).
Proof.
  unfold raw24. intros H1 H2. split.
  - rewrite delta_second_cases. destruct (Z.ltb_spec t2 t1).
    + f_equal. apply Z.mod_unique with (q := -1); lia.
    + f_equal. symmetry. apply Z.mod_small. lia.
  - intros <-. split.
    + rewrite delta_second_cases, Z.ltb_irrefl, Z.sub_diag. apply usec_0.
    + intros Hz. rewrite delta_first_cases, Z.ltb_irrefl.
      destruct (Z.eqb_spec t1 0); [contradiction|].
      rewrite Z.sub_diag. apply usec_0.
Qed.

Lemma delta_second_modular_witness :
  delta_second 16777215 5 = usec ((5 - 16777215) mod 2 ^ 24) /\
  (16777215 = 5 -> delta_second 16777215 5 = 0%float /\
                   (16777215 <> 0 -> delta_first 5 16777215 = 0%float)).
Proof.
  apply (delta_second_modular 16777215 5); unfold raw24; lia.
Defined.

Lemma fusion_loop_deltas_nonneg_witness :
  let opts := {| angle := false; sim := false; comp := false |} in
  let g := {| time2 := 16777200; gcomp := IntArr (0, 0, 0) |} in
  let reads := [Some (report (still 16777215) (still 5)); None;
                Some (report (still 20) (still 35))] in
  exists sent g' log',
    fusion_loop opts g ([] : list call) reads = (sent, Some (g', log' ++ [])) /\
    Forall (fun d => exists x, d = Some x /\ (0 <=? x)%float = true) (deltas log').
Proof.
  intros opts g reads.
  apply (fusion_loop_deltas_nonneg opts reads g []).
  - reflexivity.
  - unfold reads, decodable. repeat constructor; vm_compute; discriminate.
  - unfold raw24. cbn. lia.
  - unfold reads. cbv [packets].
    replace (decode (report (still 16777215) (still 5)))
      with (Some (still 16777215, still 5)) by (vm_compute; reflexivity).
    replace (decode (report (still 20) (still 35)))
      with (Some (still 20, still 35)) by (vm_compute; reflexivity).
    cbn [timestamps flat_map fst snd timestamp still app].
    repeat constructor; unfold raw24; lia.
Defined.

(* ================================================================== *)
(** * How the loops run over their reads *)
(* ================================================================== *)

Lemma filter_calls_length gc pkts :
  forall t, length (filter_calls gc t pkts) = (2 * length pkts)%nat.
Proof.
  induction pkts as [|[f1 f2] pkts IH]; intros t; [reflexivity|].
  cbn [filter_calls length]. rewrite IH. lia.
Qed.

(** The fusion loop with the recording filter, on reads that decode. *)
Lemma fusion_loop_calls opts reads :
  sim opts = false ->
  forall g (log : list call),
    Forall decodable reads ->
    exists sent,
      fusion_loop opts g log reads =
        (sent, Some ({| time2 := retained (time2 g) (packets reads);
                        gcomp := gcomp g |},
                     rev (filter_calls (gcomp g) (time2 g) (packets reads)) ++ log)) /\
      length sent = length (packets reads) /\
      Forall (fun out => length out = 76%nat) sent.
Proof.
  intros Hs. induction reads as [|r rest IH]; intros g log Hall.
  - exists []. destruct g. repeat split; constructor.
  - inversion Hall as [|? ? Hr Hrest]; subst.
    destruct r as [data|].
    + destruct (decode data) as [[f1 f2]|] eqn:Hd;
        [|unfold decodable in Hr; congruence].
      pose proof (fusion_body_decoded opts g log data f1 f2 Hs Hd) as Hb.
      unfold send in Hb. cbn [update_imu Recorder] in Hb.
      match type of Hb with
      | context [output_build opts ?l] =>
          destruct (recorder_output opts l) as (out & Ho & Hlen)
      end.
      rewrite Ho in Hb.
      cbn [fusion_loop packets]. rewrite Hb, Hd.
      edestruct IH as (sent & Hl & Hn & H76); [exact Hrest|].
      rewrite Hl. cbn [time2 gcomp] in *.
      exists (out :: sent). split; [|split].
      * unfold retained. cbn [map filter_calls rev]. rewrite last_cons.
        rewrite <- !app_assoc. reflexivity.
      * simpl. now rewrite Hn.
      * constructor; assumption.
    + cbn [fusion_loop packets]. unfold fusion_body. rewrite Hs.
      apply IH. exact Hrest.
Qed.

(** X9.  The fusion loop, read by read: an absent read changes nothing
    and sends nothing; every block that decodes drives exactly two filter
    updates, the first sub-frame then the second, each with its own
    reconciled delta, and sends exactly one frame of 76 bytes; the
    timestamp retained afterwards is that of the last second sub-frame. *)
Theorem fusion_loop_trace opts reads g (log : list call) :
  sim opts = false ->
  Forall decodable reads ->
  exists sent,
    fusion_loop opts g log reads =
      (sent, Some ({| time2 := retained (time2 g) (packets reads);
                      gcomp := gcomp g |},
                   rev (filter_calls (gcomp g) (time2 g) (packets reads)) ++ log)) /\
    length sent = length (packets reads) /\
    length (filter_calls (gcomp g) (time2 g) (packets reads))
      = (2 * length (packets reads))%nat /\
    Forall (fun out => length out = 76%nat) sent.
Proof.
  intros Hs Hall.
  destruct (fusion_loop_calls opts reads Hs g log Hall) as (sent & Hl & Hn & H76).
  exists sent. repeat split; try assumption. apply filter_calls_length.
Qed.

Lemma fusion_loop_trace_witness :
  let opts := {| angle := true; sim := false; comp := false |} in
  let reads := [None; Some (report (still 100) (still 600)); None;
                Some (report (still 1100) (still 1600))] in
  exists sent,
    fusion_loop opts globals_init ([] : list call) reads =
      (sent, Some ({| time2 := retained 0 (packets reads);
                      gcomp := IntArr (0, 0, 0) |},
                   rev (filter_calls (IntArr (0, 0, 0)) 0 (packets reads)) ++ [])) /\
    length sent = length (packets reads) /\
    length (filter_calls (IntArr (0, 0, 0)) 0 (packets reads))
      = (2 * length (packets reads))%nat /\
    Forall (fun out => length out = 76%nat) sent.
Proof.
  intros opts reads.
  apply (fusion_loop_trace opts reads globals_init []).
  - reflexivity.
  - unfold reads, decodable. repeat constructor; vm_compute; discriminate.
Defined.

(** Something that raises after a run of reads ends the loop there. *)
Lemma fusion_loop_stop {ahrs : Type} `{Filter ahrs} opts r1 data rest :
  forall g (q : ahrs) sent g1 q1,
    fusion_loop opts g q r1 = (sent, Some (g1, q1)) ->
    fusion_body opts g1 q1 data = FusRaise ->
    fusion_loop opts g q (r1 ++ data :: rest) = (sent, None).
Proof.
  induction r1 as [|d r1 IH]; intros g q sent g1 q1 Hl Hb.
  - cbn [fusion_loop] in Hl. injection Hl as <- <- <-.
    cbn [app fusion_loop]. now rewrite Hb.
  - cbn [app fusion_loop] in *.
    destruct (fusion_body opts g q d) as [g2 q2|g2 q2 out|]; [eauto| |discriminate].
    destruct (fusion_loop opts g2 q2 r1) as [sent1 final] eqn:Hl1.
    injection Hl as <- ->.
    now rewrite (IH g2 q2 sent1 g1 q1 Hl1 Hb).
Qed.

(** X10.  The first block that does not decode ends the fusion loop with
    an exception: the frames of the reports before it have been sent, one
    each, and the reads after it are never polled. *)
Theorem fusion_loop_raises opts good bad rest g (log : list call) :
  sim opts = false ->
  Forall decodable good ->
  decode bad = None ->
  exists sent,
    fusion_loop opts g log (good ++ Some bad :: rest) = (sent, None) /\
    length sent = length (packets good) /\
    fusion_loop opts g log (good ++ [Some bad]) = (sent, None).
Proof.
  intros Hs Hall Hbad.
  destruct (fusion_loop_calls opts good Hs g log Hall) as (sent & Hl & Hn & _).
  exists sent.
  pose proof (fun rest0 =>
                fusion_loop_stop opts good (Some bad) rest0 g log sent _ _ Hl
                  (fusion_body_undecoded opts _ _ bad Hs Hbad)) as Hstop.
  split; [apply Hstop|]. split; [exact Hn|apply Hstop].
Qed.

Lemma fusion_loop_raises_witness :
  let opts := {| angle := false; sim := false; comp := false |} in
  let good := [Some (report (still 100) (still 600)); None] in
  let rest := [Some (report (still 1100) (still 1600))] in
  exists sent,
    fusion_loop opts globals_init ([] : list call)
      (good ++ Some (repeat x00 47) :: rest) = (sent, None) /\
    length sent = length (packets good) /\
    fusion_loop opts globals_init ([] : list call)
      (good ++ [Some (repeat x00 47)]) = (sent, None).
Proof.
  intros opts good rest.
  apply (fusion_loop_raises opts good (repeat x00 47) rest globals_init []).
  - reflexivity.
  - unfold good, decodable. repeat constructor; vm_compute; discriminate.
  - vm_compute. reflexivity.
Defined.

(** The simulation loop with the recording filter. *)
Lemma sim_loop_recorded opts reads :
  sim opts = true ->
  forall g (log : list call),
    exists sent,
      fusion_loop opts g log reads
      = (sent, Some (g, repeat sim_call (length reads) ++ log)) /\
      length sent = length reads /\
      Forall (fun out => length out = 76%nat) sent.
Proof.
  intros Hs. induction reads as [|r reads IH]; intros g log.
  - exists []. repeat split; constructor.
  - cbn [fusion_loop]. unfold fusion_body, send. rewrite Hs.
    change (update_imu log (IntArr (0, 1, 0)) (IntArr (0, 1, 0)) None)
      with (sim_call :: log).
    destruct (recorder_output opts (sim_call :: log)) as (out & -> & Hlen).
    destruct (IH g (sim_call :: log)) as (sent & -> & Hn & H76).
    exists (out :: sent). split; [|split].
    + cbn [length repeat]. rewrite repeat_cons, <- app_assoc. reflexivity.
    + simpl. now rewrite Hn.
    + constructor; assumption.
Qed.

(** X11.  In simulation every iteration updates the filter once, with the
    fixed rate (0, 1, 0), acceleration (0, 1, 0) and no delta, and sends
    one frame of 76 bytes; what a read would return is never looked at,
    no device is needed, [time2] and [gcomp] keep their initial values
    and [--comp] starts no calibration. *)
Theorem simulation_run opts device reads :
  sim opts = true ->
  exists sent,
    main (ahrs := list call) opts device reads
    = RunFusing sent globals_init (repeat sim_call (length reads)) /\
    length sent = length reads /\
    Forall (fun out => length out = 76%nat) sent /\
    main (ahrs := list call) opts device reads
    = main (ahrs := list call) opts (negb device) (map (fun _ => None) reads).
Proof.
  intros Hs.
  assert (Hm : forall dev rs,
             main (ahrs := list call) opts dev rs =
             match fusion_loop opts globals_init ahrs_init rs with
             | (sent, Some (g', q)) => RunFusing sent g' q
             | (sent, None) => RunRaised sent
             end).
  { intros dev rs. unfold main, calibration. rewrite Hs. reflexivity. }
  destruct (sim_loop_recorded opts reads Hs globals_init
              (ahrs_init (ahrs := list call))) as (sent & Hl & Hn & H76).
  exists sent. rewrite !Hm, Hl.
  change (ahrs_init (ahrs := list call)) with ([] : list call).
  rewrite app_nil_r. repeat split; try assumption.
  assert (Hdata : forall rs g (log : list call),
             fusion_loop opts g log (map (fun _ => None) rs)
             = fusion_loop opts g log rs).
  { induction rs as [|r rs IH]; intros g0 log0; [reflexivity|].
    cbn [map fusion_loop]. unfold fusion_body. rewrite Hs.
    destruct (send opts g0 _) as [g1 q1|g1 q1 out|]; [apply IH| |reflexivity].
    now rewrite IH. }
  rewrite Hdata. change (ahrs_init (ahrs := list call)) with ([] : list call) in Hl.
  rewrite Hl, app_nil_r. reflexivity.
Qed.

Lemma simulation_run_witness :
  let opts := {| angle := false; sim := true; comp := true |} in
  let reads := [None; Some (report (still 1) (still 2)); Some []] in
  exists sent,
    main (ahrs := list call) opts true reads
    = RunFusing sent globals_init (repeat sim_call (length reads)) /\
    length sent = length reads /\
    Forall (fun out => length out = 76%nat) sent /\
    main (ahrs := list call) opts true reads
    = main (ahrs := list call) opts (negb true) (map (fun _ => None) reads).
Proof.
  intros opts reads. apply (simulation_run opts true reads). reflexivity.
Defined.

(* ================================================================== *)
(** * More on the frames *)
(* ================================================================== *)

Lemma frame_build_iff task tb count data out :
  Int32ul_build task = Some tb -> (4 * count <= 64)%nat ->
  Struct_build
    (header task ++ [Padded_build 64 (Array_build count Float32l_build data)])
  = Some out <->
  length data = count /\
  exists payload,
    build_all Float32l_build data = Some payload /\
    out = [x02; x00; x00; x00] ++ tb ++ [x18; x00; x00; x00]
          ++ payload ++ repeat x00 (64 - 4 * count).
Proof.
  intros Ht Hle. split.
  - intros Hb. unfold header, Array_build in Hb. rewrite Ht in Hb.
    change (Int32ul_build 2) with (Some [x02; x00; x00; x00]) in Hb.
    change (Int32ul_build 24) with (Some [x18; x00; x00; x00]) in Hb.
    destruct (Nat.eqb_spec (length data) count) as [Hc|Hc];
      [|cbn in Hb; discriminate].
    destruct (build_all Float32l_build data) as [payload|] eqn:Hp;
      [|cbn in Hb; discriminate].
    split; [exact Hc|]. exists payload. split; [reflexivity|].
    pose proof (frame_build task tb count data payload Ht Hc Hle Hp) as Hf.
    unfold header, Array_build in Hf. rewrite Ht in Hf.
    change (Int32ul_build 2) with (Some [x02; x00; x00; x00]) in Hf.
    change (Int32ul_build 24) with (Some [x18; x00; x00; x00]) in Hf.
    destruct (Nat.eqb_spec (length data) count); [|contradiction].
    rewrite Hp in Hf. rewrite Hf in Hb. now injection Hb.
  - intros (Hc & payload & Hp & ->). now apply frame_build.
Qed.

(** X12.  Each of the three frame builders succeeds exactly when it is
    given its number of values (6, 7 or 3; construct raises otherwise) and
    every value packs as a 32-bit float; the frame is then the header, the
    packed values and zero bytes, 76 bytes in all. *)
Theorem frame_builders (data : list float) (out : list byte) :
  (anglesposition_build data = Some out <->
   length data = 6%nat /\
   exists payload, build_all Float32l_build data = Some payload /\
                   out = header_bytes x03 ++ payload ++ repeat x00 40) /\
  (quaternionposition_build data = Some out <->
   length data = 7%nat /\
   exists payload, build_all Float32l_build data = Some payload /\
                   out = header_bytes x04 ++ payload ++ repeat x00 36) /\
  (justposition_build data = Some out <->
   length data = 3%nat /\
   exists payload, build_all Float32l_build data = Some payload /\
                   out = header_bytes x05 ++ payload ++ repeat x00 52) /\
  (anglesposition_build data = Some out \/
   quaternionposition_build data = Some out \/
   justposition_build data = Some out -> length out = 76%nat).
Proof.
  pose proof (frame_build_iff 3 [x03; x00; x00; x00] 6 data out eq_refl
                ltac:(lia)) as Ha.
  pose proof (frame_build_iff 4 [x04; x00; x00; x00] 7 data out eq_refl
                ltac:(lia)) as Hq.
  pose proof (frame_build_iff 5 [x05; x00; x00; x00] 3 data out eq_refl
                ltac:(lia)) as Hj.
  split; [exact Ha|]. split; [exact Hq|]. split; [exact Hj|].
  intros [Hb|[Hb|Hb]].
  - apply Ha in Hb as (Hc & payload & Hp & ->).
    apply build_all_Float32l in Hp as [Hl _].
    rewrite !length_app, repeat_length, Hl, Hc. reflexivity.
  - apply Hq in Hb as (Hc & payload & Hp & ->).
    apply build_all_Float32l in Hp as [Hl _].
    rewrite !length_app, repeat_length, Hl, Hc. reflexivity.
  - apply Hj in Hb as (Hc & payload & Hp & ->).
    apply build_all_Float32l in Hp as [Hl _].
    rewrite !length_app, repeat_length, Hl, Hc. reflexivity.
Qed.

(* ================================================================== *)
(** * Floats that pack: rounding a double to 32 bits *)
(* ================================================================== *)

Section Packing.

Lemma digits2_pos_bounds p :
  2 ^ (Zpos (digits2_pos p) - 1) <= Zpos p < 2 ^ Zpos (digits2_pos p).
Proof.
  induction p as [p IH|p IH|]; cbn [digits2_pos].
  - rewrite Pos2Z.inj_succ, Z.pow_succ_r by lia.
    replace (Z.succ (Zpos (digits2_pos p)) - 1)
      with (Z.succ (Zpos (digits2_pos p) - 1)) by lia.
    rewrite Z.pow_succ_r by lia. lia.
  - rewrite Pos2Z.inj_succ, Z.pow_succ_r by lia.
    replace (Z.succ (Zpos (digits2_pos p)) - 1)
      with (Z.succ (Zpos (digits2_pos p) - 1)) by lia.
    rewrite Z.pow_succ_r by lia. lia.
  - cbn. lia.
Qed.

(** A number below [2^k] has at most [k] binary digits. *)
Lemma Zdigits2_le z k : 0 <= z < 2 ^ k -> 0 <= k -> Zdigits2 z <= k.
Proof.
  intros Hz Hk. destruct z as [|p|p]; cbn [Zdigits2]; try lia.
  pose proof (digits2_pos_bounds p) as [Hlo _].
  assert (Hlt : 2 ^ (Zpos (digits2_pos p) - 1) < 2 ^ k) by lia.
  apply Z.pow_lt_mono_r_iff in Hlt; lia.
Qed.

Lemma shr_1_le mrs : 0 <= shr_m mrs -> 0 <= shr_m (shr_1 mrs) <= shr_m mrs.
Proof.
  destruct mrs as [m r s]; simpl.
  destruct m as [|p|p]; simpl; try lia; destruct p; simpl; lia.
Qed.

Lemma iter_shr_1_le p :
  forall mrs, 0 <= shr_m mrs -> 0 <= shr_m (iter_pos shr_1 p mrs) <= shr_m mrs.
Proof.
  induction p as [p IH|p IH|]; intros mrs Hm; simpl.
  - pose proof (shr_1_le mrs Hm) as H1.
    pose proof (IH (shr_1 mrs) ltac:(lia)) as H2.
    pose proof (IH (iter_pos shr_1 p (shr_1 mrs)) ltac:(lia)) as H3. lia.
  - pose proof (IH mrs Hm) as H2.
    pose proof (IH (iter_pos shr_1 p mrs) ltac:(lia)) as H3. lia.
  - apply shr_1_le, Hm.
Qed.

(** Shifting to the exponent of the format: the mantissa does not grow
    and the exponent is the larger of the given one and the format's. *)
Lemma shr_fexp_bounds pr em m e l :
  0 <= m ->
  0 <= shr_m (fst (shr_fexp pr em m e l)) <= m /\
  snd (shr_fexp pr em m e l) <= Z.max e (fexp pr em (Zdigits2 m + e)).
Proof.
  intros Hm. unfold shr_fexp, shr.
  assert (H0 : shr_m (shr_record_of_loc m l) = m)
    by (destruct l as [|[]]; reflexivity).
  destruct (fexp pr em (Zdigits2 m + e) - e) as [|n|n] eqn:Hn; cbn [fst snd].
  - rewrite H0. lia.
  - pose proof (iter_shr_1_le n (shr_record_of_loc m l) ltac:(lia)). lia.
  - rewrite H0. lia.
Qed.

Lemma round_nearest_even_le m l : m <= round_nearest_even m l <= m + 1.
Proof.
  destruct l as [|[]]; simpl; try lia. destruct (Z.even m); lia.
Qed.

(** The exponent of the format for single precision. *)
Lemma fexp32_le d k : d <= k -> - 149 <= k - 24 -> fexp 24 128 d <= k - 24.
Proof. unfold fexp, emin. lia. Qed.

(** Rounding to single precision does not overflow when the mantissa is
    below 2^53 and the exponent at most 12. *)
Lemma binary_round_aux_finite s mx ex lx :
  0 <= mx < 2 ^ 53 -> ex <= 12 ->
  match binary_round_aux 24 128 s mx ex lx with
  | S754_infinity _ => False
  | _ => True
  end.
Proof.
  intros Hm He. unfold binary_round_aux.
  pose proof (shr_fexp_bounds 24 128 mx ex lx ltac:(lia)) as [H1 H1e].
  destruct (shr_fexp 24 128 mx ex lx) as [mrs' e']. cbn [fst snd] in H1, H1e.
  pose proof (Zdigits2_le mx 53 Hm ltac:(lia)) as Hd.
  pose proof (fexp32_le (Zdigits2 mx + ex) 65 ltac:(lia) ltac:(lia)) as Hf.
  pose proof (round_nearest_even_le (shr_m mrs') (loc_of_shr_record mrs')) as Hr.
  set (m1 := round_nearest_even (shr_m mrs') (loc_of_shr_record mrs')) in *.
  pose proof (shr_fexp_bounds 24 128 m1 e' loc_Exact ltac:(lia)) as [H2 H2e].
  destruct (shr_fexp 24 128 m1 e' loc_Exact) as [mrs'' e''].
  cbn [fst snd] in H2, H2e.
  assert (Hm1 : 0 <= m1 < 2 ^ 54) by lia.
  pose proof (Zdigits2_le m1 54 Hm1 ltac:(lia)) as Hd1.
  pose proof (fexp32_le (Zdigits2 m1 + e') 95 ltac:(lia) ltac:(lia)) as Hf1.
  destruct (shr_m mrs'') as [|p|p]; try exact I.
  destruct (Z.leb_spec e'' (128 - 24)); [exact I|lia].
Qed.

Lemma iter_xO_value m d : Zpos (Pos.iter xO m d) = Zpos m * 2 ^ Zpos d.
Proof.
  induction d as [|d IH] using Pos.peano_ind.
  - cbn. lia.
  - rewrite Pos.iter_succ, Pos2Z.inj_xO, IH, Pos2Z.inj_succ, Z.pow_succ_r by lia.
    lia.
Qed.

Lemma shl_align_bounds m e :
  Zpos (digits2_pos m) <= 53 ->
  let r := shl_align m e (fexp 24 128 (Zpos (digits2_pos m) + e)) in
  Zpos (fst r) < 2 ^ 53 /\ snd r <= e.
Proof.
  intros Hd. pose proof (digits2_pos_bounds m) as [_ Hm].
  assert (H53 : Zpos m < 2 ^ 53).
  { eapply Z.lt_le_trans; [exact Hm|]. apply Z.pow_le_mono_r; lia. }
  unfold shl_align.
  destruct (fexp 24 128 (Zpos (digits2_pos m) + e) - e) as [|n|n] eqn:Hn;
    cbn [fst snd]; try (split; [exact H53|lia]).
  split; [|lia]. rewrite iter_xO_value.
  assert (Hk : Zpos n <= 24 - Zpos (digits2_pos m)) by (unfold fexp, emin in Hn; lia).
  assert (Zpos m * 2 ^ Zpos n < 2 ^ Zpos (digits2_pos m) * 2 ^ Zpos n)
    by (apply Z.mul_lt_mono_pos_r; lia).
  rewrite <- Z.pow_add_r in H by lia.
  eapply Z.lt_le_trans; [exact H|]. apply Z.pow_le_mono_r; lia.
Qed.

Lemma binary_round_finite s m e :
  Zpos (digits2_pos m) <= 53 -> e <= 12 ->
  match binary_round 24 128 s m e with
  | S754_infinity _ => False
  | _ => True
  end.
Proof.
  intros Hd He. unfold binary_round.
  pose proof (shl_align_bounds m e Hd) as Hb. cbv zeta in Hb.
  destruct (shl_align m e _) as [mz ez]. cbn [fst snd] in Hb.
  apply binary_round_aux_finite; lia.
Qed.

(** A finite double of magnitude at most 2^64 has an exponent of at most
    12 and a mantissa of at most 53 digits. *)
Lemma moderate_finite x s m e :
  moderate x -> Prim2SF x = S754_finite s m e ->
  Zpos (digits2_pos m) <= 53 /\ e <= 12.
Proof.
  unfold moderate. intros Hle Hx.
  pose proof (Prim2SF_valid x) as Hv. rewrite Hx in Hv.
  unfold SpecFloat.valid_binary, bounded, canonical_mantissa in Hv.
  apply andb_prop in Hv as [Hc _]. apply Z.eqb_eq in Hc.
  unfold fexp, SpecFloat.emin in Hc.
  rewrite leb_spec, abs_spec, Hx in Hle.
  replace (Prim2SF 0x1p64) with (S754_finite false 4503599627370496 12) in Hle
    by (vm_compute; reflexivity).
  unfold SFleb, SFabs, SFcompare in Hle.
  change prec with 53 in Hc. change emax with 1024 in Hc.
  split; [lia|].
  destruct (Z.compare_spec e 12); [lia|lia|discriminate Hle].
Qed.

End Packing.

Lemma moderate_build x : moderate x -> Float32l_build x <> None.
Proof.
  intros Hx. unfold Float32l_build, binary32_of_float.
  destruct (Prim2SF x) as [s|s| |s m e] eqn:Hsf; try discriminate.
  destruct (moderate_finite x s m e Hx Hsf) as [Hd He].
  pose proof (binary_round_finite s m e Hd He) as Hr.
  destruct (binary_round 24 128 s m e); try discriminate. contradiction.
Qed.

(** X13.  Every float of magnitude at most 2^64 packs as a 32-bit float:
    [struct.pack] raises its OverflowError on none of them, and the field
    is four bytes. *)
Theorem moderate_packs (x : float) :
  moderate x -> exists b, Float32l_build x = Some b /\ length b = 4%nat.
Proof.
  intros Hx. pose proof (moderate_build x Hx) as Hp.
  destruct (Float32l_build x) as [b|] eqn:Hb; [|contradiction].
  exists b. split; [reflexivity|]. now apply Float32l_build_length in Hb.
Qed.

Lemma moderate_packs_witness :
  exists b, Float32l_build (-3.5)%float = Some b /\ length b = 4%nat.
Proof.
  apply (moderate_packs (-3.5)%float). vm_compute. reflexivity.
Defined.

Lemma build_all_moderate data :
  Forall moderate data ->
  exists payload, build_all Float32l_build data = Some payload.
Proof.
  induction 1 as [|x data Hx _ IH]; [now exists []|].
  pose proof (moderate_build x Hx) as Hp. destruct IH as (bs & Hbs).
  destruct (Float32l_build x) as [b|] eqn:Hb; [|contradiction].
  exists (b ++ bs). cbn [build_all]. now rewrite Hb, Hbs.
Qed.

(** X14.  When the orientation the filter reports is of magnitude at most
    2^64 in every component (a unit quaternion and its Euler angles are),
    the frame is built in either mode and the send step raises nothing:
    after a block that decodes the loop body always sends its frame. *)
Theorem bounded_orientation_is_sent {ahrs : Type} `{Filter ahrs}
  opts g (q : ahrs) :
  moderate_outputs q ->
  exists out,
    output_build opts q = Some out /\ length out = 76%nat /\
    send opts g q = FusSent g q out.
Proof.
  intros [Hypr Hel].
  assert (Hout : exists out, output_build opts q = Some out /\ length out = 76%nat).
  { unfold output_build. destruct (angle opts).
    - destruct (yaw_pitch_roll q) as [[y p] r]. destruct Hypr as (Hy & Hp & Hr).
      destruct (build_all_moderate [p; y; r]) as (ba & Hba);
        [repeat constructor; assumption|].
      pose proof (build_all_app _ _ _ _ _ Hba position_bytes) as Hall.
      pose proof (frame_build 3 [x03; x00; x00; x00] 6 ([p; y; r] ++ position)
                    _ eq_refl eq_refl ltac:(lia) Hall) as Hf.
      unfold anglesposition_build. rewrite Hf. eexists. split; [reflexivity|].
      apply build_all_Float32l in Hba as [Hl _].
      rewrite !length_app, !repeat_length, Hl. reflexivity.
    - destruct (elements q) as [[[w x] y] z]. destruct Hel as (Hw & Hx & Hy & Hz).
      destruct (build_all_moderate [y; z; x; w]) as (bq & Hbq);
        [repeat constructor; assumption|].
      pose proof (build_all_app _ _ _ _ _ Hbq position_bytes) as Hall.
      pose proof (frame_build 4 [x04; x00; x00; x00] 7 ([y; z; x; w] ++ position)
                    _ eq_refl eq_refl ltac:(lia) Hall) as Hf.
      unfold quaternionposition_build. rewrite Hf. eexists. split; [reflexivity|].
      apply build_all_Float32l in Hbq as [Hl _].
      rewrite !length_app, !repeat_length, Hl. reflexivity. }
  destruct Hout as (out & Ho & Hl). exists out.
  split; [exact Ho|]. split; [exact Hl|]. unfold send. now rewrite Ho.
Qed.

Lemma bounded_orientation_is_sent_witness :
  exists out,
    output_build {| angle := true; sim := false; comp := false |}
      ([] : list call) = Some out /\
    length out = 76%nat /\
    send {| angle := true; sim := false; comp := false |} globals_init
      ([] : list call) = FusSent globals_init [] out.
Proof.
  apply (bounded_orientation_is_sent
           {| angle := true; sim := false; comp := false |} globals_init
           ([] : list call)).
  unfold moderate_outputs, moderate. cbn [yaw_pitch_roll elements Recorder].
  repeat split; vm_compute; reflexivity.
Defined.

(* ================================================================== *)
(** * The addresses *)
(* ================================================================== *)

Module EndpointFacts.

Import Ascii String Endpoint.
Local Open Scope string_scope.

Lemma split_nonempty sep s : split sep s <> [].
Proof.
  destruct s as [|c s]; cbn [split]; [discriminate|].
  destruct (Ascii.eqb c sep); [discriminate|].
  destruct (split sep s); discriminate.
Qed.

(** Splitting around a separator splits the two sides. *)
Lemma split_app sep a b :
  split sep (a ++ String sep b) = (split sep a ++ split sep b)%list.
Proof.
  induction a as [|c a IH]; cbn [append split].
  - now rewrite Ascii.eqb_refl.
  - destruct (Ascii.eqb c sep); [now rewrite IH|].
    rewrite IH. pose proof (split_nonempty sep a) as Hne.
    destruct (split sep a) as [|p ps]; [contradiction|reflexivity].
Qed.

Lemma split_no_sep sep s : occurs sep s = false -> split sep s = [s].
Proof.
  induction s as [|c s IH]; cbn [occurs split]; [reflexivity|].
  intros Ho. apply orb_false_iff in Ho as [Hc Hs].
  rewrite Hc, (IH Hs). reflexivity.
Qed.

Lemma last_app_nonempty {A} (l1 l2 : list A) d :
  l2 <> [] -> List.last (l1 ++ l2) d = List.last l2 d.
Proof.
  intros Hne. induction l1 as [|a l1 IH]; [reflexivity|].
  cbn [app]. rewrite <- IH. destruct (l1 ++ l2)%list eqn:E; [|reflexivity].
  apply app_eq_nil in E as [_ ->]. contradiction.
Qed.

(** X15.  The head-tracking channel is opened on the server the user
    named, at the port that follows the last colon of the endpoint the
    control channel returned: the host part of that endpoint is dropped,
    and an endpoint without a colon is taken whole as the port. *)
Theorem headset_address_port (server prefix port : string) :
  occurs ":" port = false ->
  headset_address server (prefix ++ String ":" port)
    = "tcp://" ++ server ++ ":" ++ port /\
  headset_address server port = "tcp://" ++ server ++ ":" ++ port.
Proof.
  intros Hp. unfold headset_address.
  rewrite split_app, last_app_nonempty by apply split_nonempty.
  rewrite (split_no_sep _ _ Hp). split; reflexivity.
Qed.

Lemma headset_address_port_witness :
  headset_address "192.168.1.7" ("tcp://*" ++ String ":" "38220")
    = "tcp://" ++ "192.168.1.7" ++ ":" ++ "38220" /\
  headset_address "192.168.1.7" "38220"
    = "tcp://" ++ "192.168.1.7" ++ ":" ++ "38220".
Proof.
  apply (headset_address_port "192.168.1.7" "tcp://*" "38220"). reflexivity.
Defined.

Lemma occurs_count c s : occurs c s = false <-> count c s = 0%nat.
Proof.
  induction s as [|c' s IH]; cbn [occurs count]; [tauto|].
  destruct (Ascii.eqb c' c); cbn [orb]; [split; [discriminate|lia]|].
  exact IH.
Qed.

(** X16.  Splitting at a character loses nothing: joining the parts with
    the character gives the string back; no part contains the character,
    and there is one part more than there are occurrences of it. *)
Theorem split_join (sep : ascii) (s : string) :
  concat (String sep EmptyString) (split sep s) = s /\
  Forall (fun p => occurs sep p = false) (split sep s) /\
  List.length (split sep s) = S (count sep s).
Proof.
  induction s as [|c s (IHj & IHo & IHl)]; cbn [split count].
  - repeat split. repeat constructor.
  - pose proof (split_nonempty sep s) as Hne.
    destruct (Ascii.eqb_spec c sep) as [->|Hc].
    + destruct (split sep s) as [|p ps] eqn:E; [contradiction|].
      split; [|split].
      * rewrite <- IHj. reflexivity.
      * constructor; [reflexivity|exact IHo].
      * cbn [List.length Nat.add] in *. lia.
    + destruct (split sep s) as [|p ps] eqn:E; [contradiction|].
      split; [|split].
      * rewrite <- IHj. destruct ps; reflexivity.
      * inversion IHo as [|? ? Hp Hps]; subst. constructor; [|exact Hps].
        cbn [occurs]. apply Ascii.eqb_neq in Hc. now rewrite Hc.
      * cbn [List.length Nat.add] in *. lia.
Qed.

End EndpointFacts.

(* ================================================================== *)
(** * More on the calibration loop *)
(* ================================================================== *)

Lemma packets_app r1 r2 : packets (r1 ++ r2) = packets r1 ++ packets r2.
Proof.
  induction r1 as [|[data|] r1 IH]; simpl; auto.
  destruct (decode data); simpl; now rewrite IH.
Qed.

Lemma gyro_total_steady v pkts :
  forall s n,
    Forall (steady v) pkts ->
    s = vmap (fun x => 2 * n * x) v ->
    gyro_total s pkts
    = vmap (fun x => 2 * (n + Z.of_nat (length pkts)) * x) v.
Proof.
  induction pkts as [|[f1 f2] pkts IH]; intros s n Hall Hs.
  - cbn [length gyro_total fold_left]. rewrite Hs, Z.add_0_r. reflexivity.
  - inversion Hall as [|? ? Hst Hrest]; subst. destruct Hst as [H1 H2].
    cbn [fst snd] in H1, H2.
    unfold gyro_total. cbn [fold_left fst snd]. rewrite H1, H2.
    fold (gyro_total (vzip Z.add (vzip Z.add (vmap (fun x => 2 * n * x) v) v) v)
            pkts).
    rewrite (IH _ (n + 1) Hrest).
    + cbn [length]. rewrite Nat2Z.inj_succ. unfold Z.succ.
      destruct v as [[a b] c]. cbn [vmap]. f_equal; [f_equal|]; ring.
    + destruct v as [[a b] c]. cbn [vmap vzip]. f_equal; [f_equal|]; ring.
Qed.

(** X17.  With a sensor that reports the same gyro counts in every
    sub-frame, the bias the calibration computes is, on each axis, those
    counts times the number of sub-frames read (twice the number N of
    packets) as a float, times the scale (negated on the third axis),
    divided by the accumulated seconds: the sum of the samples over the
    elapsed time, not their mean. *)
Theorem calibration_of_steady_counts opts reads g rest (v0 v1 v2 : Z) :
  comp opts = true ->
  calibration true opts reads = Calibrated g rest ->
  Forall (steady (v0, v1, v2)) (packets reads) ->
  Z.of_nat (length reads) <= 2 ^ 47 ->
  exists consumed,
    reads = consumed ++ rest /\
    let N := Z.of_nat (length (packets consumed)) in
    let seconds := elapsed 0 0 (packets consumed) in
    (5 <? seconds)%float = true /\
    gcomp g =
      FloatArr ((float_of_Z (2 * N * v0) * gyro_scale) / seconds,
                (float_of_Z (2 * N * v1) * gyro_scale) / seconds,
                (float_of_Z (2 * N * v2) * (- gyro_scale)) / seconds)%float.
Proof.
  intros Hc Hcal Hall Hlen. unfold calibration in Hcal. rewrite Hc in Hcal.
  cbn [andb] in Hcal.
  apply calibration_loop_break in Hcal
    as (consumed & -> & _ & _ & _ & Hgt & _ & Hg).
  cbn [time2 gcomp globals_init] in Hg, Hgt. unfold float_gt in Hgt.
  exists consumed. split; [reflexivity|]. cbv zeta. split; [exact Hgt|].
  rewrite packets_app in Hall. apply Forall_app in Hall as [Hall _].
  assert (Hn : Z.of_nat (length (packets consumed)) <= 2 ^ 47).
  { assert (Hpl : forall rs, (length (packets rs) <= length rs)%nat).
    { induction rs as [|[d|] rs IH]; cbn [packets length]; try lia.
      destruct (decode d); cbn [length]; lia. }
    pose proof (Hpl consumed). rewrite length_app in Hlen. lia. }
  rewrite (rate_sum_exact (packets consumed) (0, 0, 0) 0) in Hg;
    [|cbv beta iota; lia|lia|lia|apply packets_int16].
  rewrite (gyro_total_steady (v0, v1, v2) (packets consumed) (0, 0, 0) 0 Hall)
    in Hg by reflexivity.
  cbn [vmap] in Hg. rewrite bias_value in Hg.
  rewrite Z.add_0_l in Hg. exact Hg.
Qed.

Lemma calibration_of_steady_counts_witness :
  let opts := {| angle := false; sim := false; comp := true |} in
  let f t := {| timestamp := t; gyro := (3, -4, 5); acc := (0, 0, 256) |} in
  let last := Some (report (f 6001000) (f 6001500)) in
  let reads := [Some (report (f 100) (f 600)); None;
                Some (report (f 6000000) (f 6000500)); last] in
  let g := {| time2 := 6000500;
              gcomp := FloatArr (0x1.16ee7c8b6e609p-9, -0x1.73e8a60f3dd61p-9,
                                 -0x1.d0e2cf930d4b8p-9)%float |} in
  calibration true opts reads = Calibrated g [last] /\
  exists consumed,
    reads = consumed ++ [last] /\
    let N := Z.of_nat (length (packets consumed)) in
    let seconds := elapsed 0 0 (packets consumed) in
    (5 <? seconds)%float = true /\
    gcomp g =
      FloatArr ((float_of_Z (2 * N * 3) * gyro_scale) / seconds,
                (float_of_Z (2 * N * -4) * gyro_scale) / seconds,
                (float_of_Z (2 * N * 5) * (- gyro_scale)) / seconds)%float.
Proof.
  intros opts f last reads g.
  assert (Hcal : calibration true opts reads = Calibrated g [last])
    by (vm_compute; reflexivity).
  split; [exact Hcal|].
  apply (calibration_of_steady_counts opts reads g [last] 3 (-4) 5).
  - reflexivity.
  - exact Hcal.
  - unfold reads, last. cbv [packets].
    repeat match goal with
           | |- context [decode (report ?a ?b)] =>
               replace (decode (report a b)) with (Some (a, b))
                 by (vm_compute; reflexivity)
           end.
    repeat constructor.
  - cbn. lia.
Defined.

Lemma float_add_0 : (0 + nominal_delta + usec 0)%float = nominal_delta.
Proof. vm_compute. reflexivity. Qed.

Lemma float_add_stuck : (nominal_delta + usec 0 + usec 0)%float = nominal_delta.
Proof. vm_compute. reflexivity. Qed.

Lemma nominal_not_above_5 : float_gt nominal_delta 5 = false.
Proof. vm_compute. reflexivity. Qed.

Lemma calibration_loop_stuck t pkts :
  t <> 0 ->
  forall g,
    time2 g = t ->
    Forall (stuck t) pkts ->
    exists g',
      calibration_loop g nominal_delta
        (map (fun p => Some (report (fst p) (snd p))) pkts)
      = Calibrating g' nominal_delta /\ time2 g' = t.
Proof.
  intros Ht. induction pkts as [|[f1 f2] pkts IH]; intros g Hg Hall.
  - exists g. split; [reflexivity|exact Hg].
  - apply Forall_cons_iff in Hall as [(W1 & W2 & T1 & T2) Hrest].
    cbn [fst snd] in *. cbn [map calibration_loop fst snd].
    rewrite (calibration_body_decoded g nominal_delta _ f1 f2
               (decode_report_bytes f1 f2 W1 W2)).
    cbv zeta. rewrite Hg, T1, T2.
    rewrite delta_first_cases, delta_second_cases, Z.ltb_irrefl, Z.sub_diag.
    destruct (Z.eqb_spec t 0) as [E|_]; [contradiction|].
    rewrite float_add_stuck, nominal_not_above_5.
    apply IH; [reflexivity|exact Hrest].
Qed.

(** X18.  With a clock that does not advance, every sub-frame carrying the
    same non-zero timestamp, the calibration loop never completes however
    many reports it reads: the accumulated time stays at the nominal
    0.0005 seconds of the first sample. *)
Theorem calibration_stuck_clock (t : Z) (p : frame * frame) pkts :
  t <> 0 ->
  Forall (stuck t) (p :: pkts) ->
  exists g,
    calibration_loop globals_init 0
      (map (fun p => Some (report (fst p) (snd p))) (p :: pkts))
    = Calibrating g nominal_delta /\ time2 g = t.
Proof.
  intros Ht Hall. destruct p as [f1 f2].
  apply Forall_cons_iff in Hall as [(W1 & W2 & T1 & T2) Hrest].
  cbn [fst snd] in *. cbn [map calibration_loop fst snd].
  rewrite (calibration_body_decoded globals_init 0 _ f1 f2
             (decode_report_bytes f1 f2 W1 W2)).
  cbv zeta. cbn [time2 globals_init].
  destruct W1 as ((Hlo & _) & _).
  rewrite (delta_first_no_predecessor _ Hlo).
  rewrite delta_second_cases, T1, T2, Z.ltb_irrefl, Z.sub_diag.
  rewrite float_add_0, nominal_not_above_5.
  apply calibration_loop_stuck; [exact Ht|reflexivity|exact Hrest].
Qed.

Lemma calibration_stuck_clock_witness :
  let f := {| timestamp := 777; gyro := (1, 2, 3); acc := (0, 0, 256) |} in
  exists g,
    calibration_loop globals_init 0
      (map (fun p => Some (report (fst p) (snd p)))
         ((f, still 777) :: repeat (still 777, f) 40))
    = Calibrating g nominal_delta /\ time2 g = 777.
Proof.
  intros f. apply (calibration_stuck_clock 777 (f, still 777) (repeat (still 777, f) 40)).
  - lia.
  - unfold stuck, well_formed, int16_vec, int16.
    repeat constructor; cbn; lia.
Defined.
